(** * Graph masking augmentations (GAE_model/mask.py)

    A shallow embedding of [mask_node_features], [mask_path], [mask_edge]
    and of the [MaskNode] / [MaskPath] / [MaskEdge] adapters, followed by
    the properties of the masking routines.

    Conventions of the embedding:
    - probabilities are IEEE binary64 floats, as Python's [float];
    - integer tensors are lists over [Z], an edge index is the list of its
      columns, sizes and the two loop counts ([walks_per_node],
      [walk_length]) are naturals;
    - a raised exception is a [Raise] result;
    - the global random source is threaded through every routine, so that
      "for every realization of the random choices" reads "for every
      generator". *)

From Stdlib Require Import ZArith Lia String.
From Stdlib Require Import PrimFloat SpecFloat FloatOps FloatAxioms.
From stdpp Require Import base list sorting strings.

Local Open Scope Z_scope.

(** ** Exceptions and the generator-passing monad *)

Inductive exn : Type :=
| ValueError | AssertionError | IndexError | RuntimeError | OverflowError.

Inductive result (A : Type) : Type :=
| Ok (a : A)
| Raise (e : exn).
Arguments Ok {A} a.
Arguments Raise {A} e.

(** The global random source: the raw words it will hand out, in order.  An
    exhausted list keeps answering 0, so every list is a realization and
    every realization of finitely many draws is some list. *)
Definition generator : Type := list Z.

Definition M (A : Type) : Type := generator → result A * generator.

Definition ret {A} (a : A) : M A := λ g, (Ok a, g).
Definition raise {A} (e : exn) : M A := λ g, (Raise e, g).
Definition bind {A B} (m : M A) (f : A → M B) : M B :=
  λ g, match m g with
       | (Ok a, g') => f a g'
       | (Raise e, g') => (Raise e, g')
       end.
Definition lift {A} (r : result A) : M A := λ g, (r, g).

Notation "x <- m ;; k" := (bind m (λ x, k))
  (at level 100, m at next level, right associativity).

Definition next_raw : M Z :=
  λ g, match g with
       | [] => (Ok 0, [])
       | r :: g' => (Ok r, g')
       end.

(** ** Python floats *)

(** [int] to [float], correctly rounded (the conversion of [num_nodes * p]). *)
Definition float_of_Z (n : Z) : float :=
  SF2Prim (binary_normalize prec emax n 0 false).

(** [m / 2^k] rounded half to even, for [0 < k]. *)
Definition half_even (m k : Z) : Z :=
  let q := Z.shiftr m k in
  let r := m - Z.shiftl q k in
  let h := Z.shiftl 1 (k - 1) in
  if r <? h then q
  else if h <? r then q + 1
  else if Z.even q then q else q + 1.

(** Python's [round(x)] on a float: half to even, [ValueError] on NaN and
    [OverflowError] on an infinity. *)
Definition py_round (x : float) : result Z :=
  match Prim2SF x with
  | S754_zero _ => Ok 0
  | S754_finite s m e =>
      let a := if 0 <=? e then Z.shiftl (Z.pos m) e
               else half_even (Z.pos m) (- e) in
      Ok (if s then - a else a)
  | S754_nan => Raise ValueError
  | S754_infinity _ => Raise OverflowError
  end.

(** The float32 value a Python float is stored as in a float32 tensor. *)
Definition to_float32 (p : float) : spec_float :=
  match Prim2SF p with
  | S754_finite s m e =>
      binary_normalize 24 128 (if s then Z.neg m else Z.pos m) e s
  | sf => sf
  end.

(** A uniform float32 draw is [k / 2^24] with [0 <= k < 2^24]; the two
    comparisons below are exact. *)
Definition unit_of_raw (r : Z) : Z := r `mod` 2 ^ 24.

Definition unit_lt (k : Z) (x : spec_float) : bool :=
  match x with
  | S754_zero _ | S754_nan => false
  | S754_infinity s => negb s
  | S754_finite true _ _ => false
  | S754_finite false m e =>
      if 0 <=? e + 24 then k <? Z.pos m * 2 ^ (e + 24)
      else k * 2 ^ (- (e + 24)) <? Z.pos m
  end.

Definition unit_le (k : Z) (x : spec_float) : bool :=
  match x with
  | S754_zero _ => k =? 0
  | S754_nan => false
  | S754_infinity s => negb s
  | S754_finite true _ _ => false
  | S754_finite false m e =>
      if 0 <=? e + 24 then k <=? Z.pos m * 2 ^ (e + 24)
      else k * 2 ^ (- (e + 24)) <=? Z.pos m
  end.

Definition in_unit_interval (x : spec_float) : bool :=
  match x with
  | S754_zero _ => true
  | S754_finite false _ _ => negb (unit_lt (2 ^ 24) x)
  | _ => false
  end.

(** ** Tensors

    A one-dimensional integer tensor is a [list Z], a boolean one a
    [list bool]; an edge index (a 2-by-E tensor) is the list of its
    columns. *)

Definition edge_index_t : Type := list (Z * Z).

(** Python indexing: negative indices count from the end. *)
Definition norm_index (n : nat) (i : Z) : option nat :=
  if (0 <=? i) && (i <? Z.of_nat n) then Some (Z.to_nat i)
  else if (- Z.of_nat n <=? i) && (i <? 0) then Some (Z.to_nat (i + Z.of_nat n))
  else None.

Definition tensor_get {A} (t : list A) (i : Z) : result A :=
  match norm_index (length t) i with
  | Some k => match t !! k with
              | Some x => Ok x
              | None => Raise IndexError
              end
  | None => Raise IndexError
  end.

(** [t[lo:hi]] with Python's clamping. *)
Definition py_slice {A} (t : list A) (lo hi : Z) : list A :=
  let n := Z.of_nat (length t) in
  let clamp i := if i <? 0 then Z.max 0 (i + n) else Z.min i n in
  take (Z.to_nat (clamp hi - clamp lo)) (drop (Z.to_nat (clamp lo)) t).

(** [t[mask]] for a boolean mask of the length of [t]. *)
Fixpoint select {A} (mask : list bool) (t : list A) : list A :=
  match mask, t with
  | b :: mask', x :: t' => if b then x :: select mask' t' else select mask' t'
  | _, _ => []
  end.

(** [t.repeat(w)] on a one-dimensional tensor. *)
Definition tensor_repeat {A} (t : list A) (w : nat) : list A :=
  concat (replicate w t).

(** [torch.tensor(l)] infers float32 for an empty Python list. *)
Inductive dtype : Type := int64 | float32.

Definition torch_tensor_dtype (l : list Z) : dtype :=
  match l with
  | [] => float32
  | _ => int64
  end.

(** [mask[idx] = False]: the index tensor has to be integral and every index
    within [-len, len). *)
Definition index_put_false (mask : list bool) (dt : dtype) (idx : list Z)
  : result (list bool) :=
  match dt with
  | float32 => Raise IndexError
  | int64 =>
      match mapM (norm_index (length mask)) idx with
      | Some ks => Ok (foldl (λ m k, <[k := false]> m) mask ks)
      | None => Raise IndexError
      end
  end.

(** ** Sampling primitives *)

(** [torch.randint(n, (1,))]. *)
Definition randint (n : nat) : M Z :=
  match n with
  | O => raise RuntimeError
  | _ => r <- next_raw ;; ret (r `mod` Z.of_nat n)
  end.

Fixpoint randperm_aux (fuel : nat) (pool : list Z) : M (list Z) :=
  match fuel with
  | O => ret []
  | S fuel' =>
      i <- randint (length pool) ;;
      x <- lift (tensor_get pool i) ;;
      rest <- randperm_aux fuel' (delete (Z.to_nat i) pool) ;;
      ret (x :: rest)
  end.

(** [torch.randperm(n)]: a permutation of [0 .. n-1], drawn by repeated
    selection from the remaining pool. *)
Definition randperm (n : Z) : M (list Z) :=
  if n <? 0 then raise RuntimeError
  else randperm_aux (Z.to_nat n) (seqZ 0 n).

Fixpoint draw_units (n : nat) : M (list Z) :=
  match n with
  | O => ret []
  | S n' => r <- next_raw ;; us <- draw_units n' ;; ret (unit_of_raw r :: us)
  end.

(** [torch.bernoulli] on a float32 tensor of [n] entries all equal to [p]:
    entry [i] is 1 exactly when its uniform draw is below [p]. *)
Definition bernoulli (p : float) (n : nat) : M (list bool) :=
  match n with
  | O => ret []
  | _ =>
      if in_unit_interval (to_float32 p)
      then us <- draw_units n ;; ret ((λ u, unit_lt u (to_float32 p)) <$> us)
      else raise RuntimeError
  end.

(** [torch.rand(n) <= p]. *)
Definition rand_le (p : float) (n : nat) : M (list bool) :=
  us <- draw_units n ;; ret ((λ u, unit_le u (to_float32 p)) <$> us).

(** ** Library primitives on edge indices *)

(** Modelled from the spec: [maybe_num_nodes] is a library routine; it
    returns [num_nodes] if given, else 1 + the largest node id (0 on an
    empty edge index). *)
Definition maybe_num_nodes (edge_index : edge_index_t) (num_nodes : option Z) : Z :=
  match num_nodes with
  | Some n => n
  | None =>
      match (fst <$> edge_index) ++ (snd <$> edge_index) with
      | [] => 0
      | x :: xs => foldr Z.max x xs + 1
      end
  end.

Definition edge_le (a b : Z * Z) : Prop :=
  a.1 < b.1 ∨ (a.1 = b.1 ∧ a.2 ≤ b.2).

#[global] Instance edge_le_dec : RelDecision edge_le.
Proof. intros a b. unfold edge_le. apply _. Defined.

(** Modelled from the spec: [sort_edge_index] is a library routine; it
    returns the columns sorted by source node, ties by target. *)
Definition sort_edge_index (edge_index : edge_index_t) : edge_index_t :=
  merge_sort edge_le edge_index.

(** Modelled from the spec: [to_undirected] is a library routine; it returns
    for every input edge (u,v) both (u,v) and (v,u), duplicates removed. *)
Definition to_undirected (edge_index : edge_index_t) : edge_index_t :=
  remove_dups (merge_sort edge_le (edge_index ++ (prod_swap <$> edge_index))).

(** Modelled from the spec: [degree] is a library routine; entry [i] of its
    result counts the edges of source [i].  A source outside
    [0 .. num_nodes-1] makes the underlying scatter fail. *)
Definition degree (row : list Z) (num_nodes : Z) : result (list Z) :=
  if num_nodes <? 0 then Raise RuntimeError
  else if forallb (λ r, (0 <=? r) && (r <? num_nodes)) row
  then Ok ((λ i, Z.of_nat (length (filter (λ r, r = i) row))) <$> seqZ 0 num_nodes)
  else Raise RuntimeError.

Fixpoint cumsum_from (acc : Z) (l : list Z) : list Z :=
  match l with
  | [] => []
  | x :: l' => (acc + x) :: cumsum_from (acc + x) l'
  end.

Definition cumsum (l : list Z) : list Z := cumsum_from 0 l.

(** ** The masking routines *)

(** [mask_node_features(x, q)]: [x] is the list of feature rows. *)
Definition mask_node_features (x : list (list float)) (q : float)
  : M (list (list float)) :=
  if (q <? 0)%float || (1 <? q)%float then raise ValueError
  else
    let num_nodes := length x in
    mask <- bernoulli q num_nodes ;;
    ret (zip_with (λ (b : bool) row,
                     if b then (λ _, 0%float) <$> row else row) mask x).

(** [mask_edge(edge_index, p)]. *)
Definition mask_edge (edge_index : edge_index_t) (p : float)
  : M (edge_index_t * edge_index_t) :=
  if (p <? 0)%float || (1 <? p)%float then raise ValueError
  else
    mask <- bernoulli p (length edge_index) ;;
    ret (select (negb <$> mask) edge_index, select mask edge_index).

(** One walk from [current_node] of at most [walk_length] steps: the pair of
    what it appends to [n_id] and to [e_id], end marker left out. *)
Fixpoint walk (col rowptr : list Z) (walk_length : nat) (current_node : Z)
  : M (list Z * list Z) :=
  match walk_length with
  | O => ret ([], [])
  | S steps =>
      lo <- lift (tensor_get rowptr current_node) ;;
      hi <- lift (tensor_get rowptr (current_node + 1)) ;;
      let neighbors := py_slice col lo hi in
      match length neighbors with
      | O => ret ([], [])
      | n =>
          i <- randint n ;;
          next_node <- lift (tensor_get neighbors i) ;;
          ne <- walk col rowptr steps next_node ;;
          ret (next_node :: ne.1, current_node :: ne.2)
      end
  end.

(** The loop over [start], accumulating into [(n_id, e_id)]. *)
Fixpoint walks_from (col rowptr : list Z) (walk_length : nat)
    (start : list Z) (acc : list Z * list Z) : M (list Z * list Z) :=
  match start with
  | [] => ret acc
  | node :: start' =>
      ne <- walk col rowptr walk_length node ;;
      walks_from col rowptr walk_length start'
        (acc.1 ++ ne.1, acc.2 ++ ne.2 ++ [-1])
  end.

(** The loop over [range(walks_per_node)] around it. *)
Fixpoint walk_rounds (col rowptr : list Z) (walk_length : nat)
    (start : list Z) (rounds : nat) (acc : list Z * list Z)
  : M (list Z * list Z) :=
  match rounds with
  | O => ret acc
  | S rounds' =>
      acc' <- walks_from col rowptr walk_length start acc ;;
      walk_rounds col rowptr walk_length start rounds' acc'
  end.

(** The start nodes, already repeated [walks_per_node] times. *)
Definition select_start (row : list Z) (p : float) (walks_per_node : nat)
    (num_nodes : Z) (start : string) : M (list Z) :=
  if String.eqb start "edge" then
    sample_mask <- rand_le p (length row) ;;
    ret (tensor_repeat (select sample_mask row) walks_per_node)
  else
    perm <- randperm num_nodes ;;
    k <- lift (py_round (float_of_Z num_nodes * p)%float) ;;
    ret (tensor_repeat (py_slice perm 0 k) walks_per_node).

(** What [mask_path] returns next to the first edge tensor: the boolean edge
    mask on the bypass, the tensor of masked columns otherwise. *)
Inductive second_t : Type :=
| BoolMask (edge_mask : list bool)
| Edges (masked_edges : edge_index_t).

(** The training path of [mask_path] up to the two lists [(n_id, e_id)] the
    walks build, together with the sorted edge index they ran on. *)
Definition mask_path_walks (edge_index : edge_index_t) (p : float)
    (walks_per_node walk_length : nat) (num_nodes : option Z)
    (start : string) (is_sorted : bool)
  : M (edge_index_t * (list Z * list Z)) :=
  let num_nodes := maybe_num_nodes edge_index num_nodes in
  let edge_index := if is_sorted then edge_index
                    else sort_edge_index edge_index in
  let row := fst <$> edge_index in
  let col := snd <$> edge_index in
  start <- select_start row p walks_per_node num_nodes start ;;
  deg <- lift (degree row num_nodes) ;;
  let rowptr := 0 :: cumsum deg in
  ne <- walk_rounds col rowptr walk_length start walks_per_node ([], []) ;;
  ret (edge_index, ne).

(** [mask_path]. *)
Definition mask_path (edge_index : edge_index_t) (p : float)
    (walks_per_node walk_length : nat) (num_nodes : option Z)
    (start : string) (is_sorted training : bool)
  : M (edge_index_t * second_t) :=
  if (p <? 0)%float || (1 <? p)%float then raise ValueError
  else if negb (bool_decide (start ∈ ["node"; "edge"]%string))
  then raise AssertionError
  else
    let num_edges := length edge_index in
    let edge_mask := replicate num_edges true in
    if negb training || (p =? 0)%float then ret (edge_index, BoolMask edge_mask)
    else
      sw <- mask_path_walks edge_index p walks_per_node walk_length
              num_nodes start is_sorted ;;
      let edge_index := sw.1 in
      let e_id := sw.2.2 in
      let dt := torch_tensor_dtype e_id in
      let e_id := filter (λ e, e ≠ -1) e_id in
      edge_mask <- lift (index_put_false edge_mask dt e_id) ;;
      ret (select edge_mask edge_index,
           Edges (select (negb <$> edge_mask) edge_index)).

(** ** The adapters *)

Record MaskNode : Type := {
  mn_q : float;
  mn_undirected : bool
}.

Definition MaskNode_forward (self : MaskNode) (x : list (list float))
  : M (list (list float)) :=
  mask_node_features x (mn_q self).

Record MaskPath : Type := {
  mp_p : float;
  mp_walks_per_node : nat;
  mp_walk_length : nat;
  mp_start : string;
  mp_num_nodes : option Z;
  mp_undirected : bool
}.

Definition MaskPath_forward (self : MaskPath) (edge_index : edge_index_t)
  : M (edge_index_t * second_t) :=
  rm <- mask_path edge_index (mp_p self) (mp_walks_per_node self)
          (mp_walk_length self) (mp_num_nodes self) (mp_start self)
          false true ;;
  let remaining_edges :=
    if mp_undirected self then to_undirected rm.1 else rm.1 in
  ret (remaining_edges, rm.2).

Record MaskEdge : Type := {
  me_p : float;
  me_undirected : bool
}.

Definition MaskEdge_forward (self : MaskEdge) (edge_index : edge_index_t)
  : M (edge_index_t * edge_index_t) :=
  rm <- mask_edge edge_index (me_p self) ;;
  let remaining_edges :=
    if me_undirected self then to_undirected rm.1 else rm.1 in
  ret (remaining_edges, rm.2).

(** ** Vocabulary of the properties *)

(** The spec's single error kind for rejected arguments: the two Python
    exceptions the validation statements raise. *)
Definition InvalidArgument (e : exn) : Prop :=
  e = ValueError ∨ e = AssertionError.

(** The range test the three routines start with. *)
Definition out_of_range (p : float) : bool :=
  ((p <? 0) || (1 <? p))%float.

(** The edge index the walks run on and the outputs are cut from. *)
Definition canonical (edge_index : edge_index_t) (is_sorted : bool)
  : edge_index_t :=
  if is_sorted then edge_index else sort_edge_index edge_index.

(** A boolean partition of the columns: both parts together are the columns,
    and a column lies in both parts only if it occurs twice. *)
Definition column_partition (remaining masked columns : edge_index_t) : Prop :=
  remaining ++ masked ≡ₚ columns
  ∧ (∀ c, c ∈ columns ↔ c ∈ remaining ∨ c ∈ masked)
  ∧ (NoDup columns → ∀ c, c ∈ remaining → c ∉ masked).

(** Every entry of the edge index is a node id of [0 .. n-1]. *)
Definition valid_edge_index (n : Z) (edge_index : edge_index_t) : Prop :=
  Forall (λ c, (0 ≤ c.1 < n) ∧ (0 ≤ c.2 < n)) edge_index.

(** The columns come in the order of their source node. *)
Definition sorted_by_source (edge_index : edge_index_t) : Prop :=
  StronglySorted (λ a b, a.1 ≤ b.1) edge_index.

(** The targets of the edges that leave [v], in the order of the edge
    index. *)
Definition out_neighbors (edge_index : list (Z * Z)) (v : Z) : list Z :=
  snd <$> filter (λ c, c.1 = v) edge_index.

Definition Zsum (l : list Z) : Z := foldr Z.add 0 l.

(** The number of cleared (false) entries of a boolean mask. *)
Definition cleared_count (mask : list bool) : nat :=
  length (filter (λ b : bool, b = false) mask).

(** ** The float model on a few values *)

Example py_round_half_even :
  py_round 0.5 = Ok 0 ∧ py_round 1.5 = Ok 2 ∧ py_round 2.5 = Ok 2
  ∧ py_round 0.75 = Ok 1 ∧ py_round (float_of_Z 3 * 0.25) = Ok 1
  ∧ py_round nan = Raise ValueError.
Proof. repeat split; vm_compute; reflexivity. Qed.

Example to_float32_values :
  to_float32 1 = S754_finite false 8388608 (-23)
  ∧ to_float32 0.5 = S754_finite false 8388608 (-24)
  ∧ to_float32 0x1.fffffffffffffp-1 = S754_finite false 8388608 (-23)
  ∧ to_float32 0x1p-200 = S754_zero false
  ∧ in_unit_interval (to_float32 1) = true
  ∧ in_unit_interval (to_float32 nan) = false.
Proof. repeat split; vm_compute; reflexivity. Qed.

(** ** Float comparisons *)

Lemma float_pos_neq_zero (p : float) :
  (0 <? p)%float = true → (p =? 0)%float = false.
Proof.
  intros H. rewrite FloatAxioms.ltb_spec in H. rewrite FloatAxioms.eqb_spec.
  change (Prim2SF 0) with (S754_zero false) in *.
  destruct (Prim2SF p) as [s|s| |s m e]; try destruct s; cbn in *; congruence.
Qed.

(** ** Running the monad *)

Lemma bind_Ok_inv {A B} (m : M A) (f : A → M B) g b g2 :
  bind m f g = (Ok b, g2) → ∃ a g1, m g = (Ok a, g1) ∧ f a g1 = (Ok b, g2).
Proof. unfold bind. destruct (m g) as [[a|e] g1]; [eauto | discriminate]. Qed.

Lemma bind_Ok {A B} (m : M A) (f : A → M B) g a g1 :
  m g = (Ok a, g1) → bind m f g = f a g1.
Proof. unfold bind. now intros ->. Qed.

Lemma lift_Ok_inv {A} (r : result A) g a g' :
  lift r g = (Ok a, g') → r = Ok a ∧ g' = g.
Proof. unfold lift. now intros [= -> ->]. Qed.

Lemma ret_inv {A} (a b : A) g g' : ret a g = (Ok b, g') → b = a ∧ g' = g.
Proof. unfold ret. now intros [= -> ->]. Qed.

Ltac inv_M :=
  repeat match goal with
    | H : bind _ _ _ = (Ok _, _) |- _ =>
        apply bind_Ok_inv in H; destruct H as (? & ? & ? & H)
    | H : lift _ _ = (Ok _, _) |- _ =>
        apply lift_Ok_inv in H; destruct H as [? ->]
    | H : ret _ _ = (Ok _, _) |- _ =>
        apply ret_inv in H; destruct H as [-> ->]
    | H : raise _ _ = (Ok _, _) |- _ => discriminate H
    end.

(** ** Boolean selection *)

Lemma select_Permutation {A} (mask : list bool) (t : list A) :
  length mask = length t → select mask t ++ select (negb <$> mask) t ≡ₚ t.
Proof.
  revert t. induction mask as [|b mask IH]; intros [|x t] Hlen;
    simplify_eq/=; [done|].
  destruct b; simpl.
  - by rewrite IH.
  - by rewrite <- Permutation_middle, IH.
Qed.

Lemma select_all {A} (t : list A) : select (replicate (length t) true) t = t.
Proof. induction t; simpl; congruence. Qed.

Lemma select_none {A} n (t : list A) : select (replicate n false) t = [].
Proof. revert t. induction n; intros [|x t]; simpl; auto. Qed.

Lemma select_column_partition (mask : list bool) (t : edge_index_t) :
  length mask = length t →
  column_partition (select mask t) (select (negb <$> mask) t) t.
Proof.
  intros Hlen. pose proof (select_Permutation mask t Hlen) as HP.
  split; [done|]. split.
  - intros c. rewrite <- elem_of_app. split; intros Hc.
    + by eapply elem_of_Permutation_proper.
    + by eapply elem_of_Permutation_proper; [symmetry|].
  - intros Hnd c Hr Hm. rewrite <- HP in Hnd.
    apply NoDup_app in Hnd as (_ & Hdis & _). by apply (Hdis c).
Qed.

(** ** Uniform draws *)

Lemma draw_units_spec n g :
  ∃ us, draw_units n g = (Ok us, drop n g) ∧ length us = n
        ∧ Forall (λ u, 0 ≤ u < 2 ^ 24) us.
Proof.
  revert g. induction n as [|n IH]; intros g; simpl.
  - exists []. by rewrite drop_0.
  - unfold bind at 1.
    assert (∃ r, next_raw g = (Ok r, drop 1 g)) as [r ->].
    { destruct g; simpl; eauto. }
    destruct (IH (drop 1 g)) as (us & Hus & Hlen & Hall).
    rewrite (bind_Ok _ _ _ _ _ Hus). unfold ret.
    exists (unit_of_raw r :: us). split; [|split].
    + f_equal. rewrite drop_drop. f_equal.
    + simpl. by rewrite Hlen.
    + constructor; [|done]. unfold unit_of_raw.
      apply Z.mod_pos_bound. lia.
Qed.

Lemma bernoulli_zero n g :
  bernoulli 0 n g = (Ok (replicate n false), drop n g).
Proof.
  destruct n as [|n]; [by rewrite drop_0|].
  unfold bernoulli. change (to_float32 0) with (S754_zero false).
  cbn [in_unit_interval].
  destruct (draw_units_spec (S n) g) as (us & Hus & Hlen & _).
  rewrite (bind_Ok _ _ _ _ _ Hus). unfold ret. f_equal. f_equal.
  rewrite <- Hlen. clear. induction us as [|u us IH]; csimpl; [done|].
  f_equal. exact IH.
Qed.

Lemma bernoulli_one n g :
  bernoulli 1 n g = (Ok (replicate n true), drop n g).
Proof.
  destruct n as [|n]; [by rewrite drop_0|].
  unfold bernoulli.
  change (to_float32 1) with (S754_finite false 8388608 (-23)).
  change (in_unit_interval _) with true. cbv iota.
  destruct (draw_units_spec (S n) g) as (us & Hus & Hlen & Hall).
  rewrite (bind_Ok _ _ _ _ _ Hus). unfold ret. f_equal. f_equal.
  rewrite <- Hlen. clear Hus Hlen.
  induction Hall as [|u us Hu _ IH]; csimpl; [done|].
  f_equal; [|exact IH]. apply Z.ltb_lt. lia.
Qed.

(** On a probability within range the sampling cannot fail. *)
Lemma bernoulli_length p n g bs g' :
  bernoulli p n g = (Ok bs, g') → length bs = n.
Proof.
  destruct n as [|n]; simpl.
  - by intros [= <- _].
  - destruct (in_unit_interval _); [|discriminate].
    destruct (draw_units_spec (S n) g) as (us & Hus & Hlen & _).
    rewrite (bind_Ok _ _ _ _ _ Hus). intros [= <- _].
    by rewrite length_fmap.
Qed.

(** ** Argument validation *)

(** C6 as stated fails: a NaN is a probability outside [0,1], yet it passes
    the two comparisons of the range check.  [mask_node_features] and
    [mask_edge] then fail in the Bernoulli sampling with [RuntimeError],
    which is no [InvalidArgument], and [mask_path] in 'node' mode fails in
    [round] only after the permutation has been drawn. *)
Lemma nan_probability_counterexample :
  (0 <=? nan)%float = false ∧ (nan <=? 1)%float = false
  ∧ mask_node_features [[1%float]] nan [7] = (Raise RuntimeError, [7])
  ∧ mask_edge [(0, 1)] nan [7] = (Raise RuntimeError, [7])
  ∧ ¬ InvalidArgument RuntimeError
  ∧ mask_path [(0, 1); (1, 0)] nan 1 3 None "node" false true [7; 3]
    = (Raise ValueError, [])
  ∧ ([] : generator) ≠ [7; 3].
Proof.
  repeat split; try (vm_compute; reflexivity); try discriminate.
  intros [H|H]; discriminate H.
Qed.

(** C6, amended: a probability below 0 or above 1 makes
    [mask_node_features], [mask_path] (in training mode) and [mask_edge]
    raise [ValueError], the [InvalidArgument] kind, with the generator
    untouched: nothing was sampled and nothing built. *)
Theorem out_of_range_probability_rejected
    (x : list (list float)) (edge_index : edge_index_t) (p : float)
    (walks_per_node walk_length : nat) (num_nodes : option Z)
    (start : string) (is_sorted : bool) (g : generator) :
  (p <? 0)%float = true ∨ (1 <? p)%float = true →
  InvalidArgument ValueError
  ∧ mask_node_features x p g = (Raise ValueError, g)
  ∧ mask_path edge_index p walks_per_node walk_length num_nodes start
      is_sorted true g = (Raise ValueError, g)
  ∧ mask_edge edge_index p g = (Raise ValueError, g).
Proof.
  intros Hp.
  assert (((p <? 0) || (1 <? p))%float = true) as Hc.
  { destruct Hp as [-> | ->]; [done | apply orb_true_r]. }
  unfold mask_node_features, mask_path, mask_edge. rewrite Hc.
  repeat split; by left.
Qed.

Lemma out_of_range_probability_rejected_witness :
  (1 <? 2)%float = true
  ∧ mask_edge [(0, 1)] 2 [7] = (Raise ValueError, [7]).
Proof.
  split; [reflexivity|].
  apply (out_of_range_probability_rejected [] [(0, 1)] 2 1 3 None "node"
           false [7]).
  right. reflexivity.
Defined.

(** C7: any start mode other than 'node' and 'edge' makes [mask_path] fail
    with an [InvalidArgument] error and an untouched generator: the failed
    assertion when the probability passed its own check, the [ValueError]
    of that check otherwise. *)
Theorem unknown_start_mode_rejected
    (edge_index : edge_index_t) (p : float)
    (walks_per_node walk_length : nat) (num_nodes : option Z)
    (start : string) (is_sorted training : bool) (g : generator) :
  start ≠ "node"%string → start ≠ "edge"%string →
  ∃ e, InvalidArgument e
       ∧ e = (if out_of_range p then ValueError else AssertionError)
       ∧ mask_path edge_index p walks_per_node walk_length num_nodes start
           is_sorted training g = (Raise e, g).
Proof.
  intros Hn He. unfold mask_path, out_of_range.
  destruct ((p <? 0) || (1 <? p))%float.
  - exists ValueError. repeat split. by left.
  - exists AssertionError. split; [by right|]. split; [done|].
    rewrite bool_decide_eq_false_2; [done|].
    rewrite !elem_of_cons, elem_of_nil. tauto.
Qed.

Lemma unknown_start_mode_rejected_witness :
  mask_path [(0, 1); (1, 0)] 0.5 1 3 None "both" false true [4]
  = (Raise AssertionError, [4]).
Proof.
  destruct (unknown_start_mode_rejected [(0, 1); (1, 0)] 0.5 1 3 None
              "both" false true [4]) as (e & _ & -> & H);
    [discriminate | discriminate | exact H].
Defined.

(** ** The evaluation-mode bypass *)

(** C5 as stated fails: the range check comes before the bypass, so an
    out-of-range probability is rejected even with [training = False]. *)
Lemma bypass_out_of_range_counterexample :
  mask_path [(0, 1)] 2 1 3 None "node" false false []
  = (Raise ValueError, [])
  ∧ (mask_path [(0, 1)] 2 1 3 None "node" false false []).1
    ≠ Ok ([(0, 1)], BoolMask [true]).
Proof. split; [reflexivity | discriminate]. Qed.

(** C5, amended: for a probability for which neither [p < 0] nor [p > 1]
    holds and a start mode 'node' or 'edge', [mask_path] with
    [training = False], or with [p == 0], returns the edge index as given
    and the all-true mask of length E, raises nothing and samples nothing;
    for a probability below 0 or above 1 it raises [ValueError] before the
    bypass, whatever [training] and the start mode are, with nothing
    sampled. *)
Theorem bypass_returns_identity
    (edge_index : edge_index_t) (p : float)
    (walks_per_node walk_length : nat) (num_nodes : option Z)
    (start : string) (is_sorted training : bool) (g : generator) :
  ((p <? 0)%float = false → (1 <? p)%float = false →
   start = "node"%string ∨ start = "edge"%string →
   training = false ∨ (p =? 0)%float = true →
   mask_path edge_index p walks_per_node walk_length num_nodes start
     is_sorted training g
   = (Ok (edge_index, BoolMask (replicate (length edge_index) true)), g))
  ∧ ((p <? 0)%float = true ∨ (1 <? p)%float = true →
     mask_path edge_index p walks_per_node walk_length num_nodes start
       is_sorted training g
     = (Raise ValueError, g)).
Proof.
  unfold mask_path. split.
  - intros Hlo Hhi Hs Hb. rewrite Hlo, Hhi.
    rewrite bool_decide_eq_true_2
      by (rewrite !elem_of_cons; tauto).
    cbn [negb orb].
    destruct Hb as [-> | ->]; [done | by rewrite orb_true_r].
  - intros [-> | ->]; [done | by rewrite orb_true_r].
Qed.

Lemma bypass_returns_identity_witness :
  mask_path [(2, 0); (0, 1)] 0.5 1 3 None "edge" false false [9]
  = (Ok ([(2, 0); (0, 1)], BoolMask [true; true]), [9])
  ∧ mask_path [(2, 0); (0, 1)] (-0.5) 1 3 None "edge" false false [9]
    = (Raise ValueError, [9]).
Proof.
  split.
  - apply (bypass_returns_identity [(2, 0); (0, 1)] 0.5 1 3 None "edge"
             false false [9]).
    + reflexivity.
    + reflexivity.
    + right. reflexivity.
    + left. reflexivity.
  - apply (bypass_returns_identity [(2, 0); (0, 1)] (-0.5) 1 3 None "edge"
             false false [9]).
    left. reflexivity.
Defined.

(** ** [mask_edge] at the extremes *)

(** C8: with [p = 0] the remaining set is the input, order kept, and the
    masked set is empty; with [p = 1] the remaining set is empty and the
    masked set is the whole input. *)
Theorem mask_edge_extremes (edge_index : edge_index_t) (g : generator) :
  (mask_edge edge_index 0 g).1 = Ok (edge_index, [])
  ∧ (mask_edge edge_index 1 g).1 = Ok ([], edge_index).
Proof.
  unfold mask_edge.
  change ((0 <? 0) || (1 <? 0))%float with false.
  change ((1 <? 0) || (1 <? 1))%float with false. cbv iota.
  rewrite (bind_Ok _ _ _ _ _ (bernoulli_zero _ g)).
  rewrite (bind_Ok _ _ _ _ _ (bernoulli_one _ g)).
  unfold ret; simpl. split; f_equal; f_equal.
  - rewrite fmap_replicate. apply select_all.
  - apply select_none.
  - rewrite fmap_replicate. apply select_none.
  - apply select_all.
Qed.

(** ** The training path of [mask_path] *)

Lemma canonical_Permutation edge_index is_sorted :
  canonical edge_index is_sorted ≡ₚ edge_index.
Proof.
  unfold canonical, sort_edge_index. destruct is_sorted; [done|].
  apply merge_sort_Permutation.
Qed.

Lemma index_put_false_length mask dt idx mask' :
  index_put_false mask dt idx = Ok mask' → length mask' = length mask.
Proof.
  unfold index_put_false. destruct dt; [|discriminate].
  destruct (mapM _ idx) as [ks|]; [|discriminate]. intros [= <-].
  generalize mask. induction ks as [|k ks IH]; intros m; simpl; [done|].
  by rewrite IH, length_insert.
Qed.

Lemma mask_path_walks_canonical edge_index p walks_per_node walk_length
    num_nodes start is_sorted g sw g' :
  mask_path_walks edge_index p walks_per_node walk_length num_nodes start
    is_sorted g = (Ok sw, g') →
  sw.1 = canonical edge_index is_sorted.
Proof. unfold mask_path_walks. intros H. inv_M. done. Qed.

(** A successful call on the training path returns the two selections of
    the canonical edge index by one boolean mask of length E. *)
Lemma mask_path_training_inv edge_index p walks_per_node walk_length
    num_nodes start is_sorted g r g' :
  (p =? 0)%float = false →
  mask_path edge_index p walks_per_node walk_length num_nodes start
    is_sorted true g = (Ok r, g') →
  ∃ edge_mask,
    length edge_mask = length edge_index
    ∧ r = (select edge_mask (canonical edge_index is_sorted),
           Edges (select (negb <$> edge_mask)
                    (canonical edge_index is_sorted))).
Proof.
  intros Hp. unfold mask_path. rewrite Hp.
  destruct ((p <? 0) || (1 <? p))%float; [discriminate|].
  destruct (negb (bool_decide _)); [discriminate|].
  cbn [negb orb]. intros H.
  apply bind_Ok_inv in H as (sw & g1 & Hw & H).
  apply bind_Ok_inv in H as (edge_mask & g2 & Hm & H).
  apply lift_Ok_inv in Hm as [Hm ->].
  apply ret_inv in H as [-> ->].
  apply index_put_false_length in Hm. rewrite length_replicate in Hm.
  rewrite (mask_path_walks_canonical _ _ _ _ _ _ _ _ _ _ Hw).
  by exists edge_mask.
Qed.

(** C10: the second component is the all-true mask of length E on the bypass
    ([training = False] or [p == 0]), and on the training path with [p > 0]
    it is the tensor of the masked columns, never a boolean mask. *)
Theorem mask_path_second_component
    (edge_index : edge_index_t) (p : float)
    (walks_per_node walk_length : nat) (num_nodes : option Z)
    (start : string) (is_sorted training : bool) (g g' : generator)
    (r : edge_index_t * second_t) :
  mask_path edge_index p walks_per_node walk_length num_nodes start
    is_sorted training g = (Ok r, g') →
  (training = false ∨ (p =? 0)%float = true →
   r.2 = BoolMask (replicate (length edge_index) true))
  ∧ (training = true → (0 <? p)%float = true →
     (∃ edge_mask,
        length edge_mask = length edge_index
        ∧ r.2 = Edges (select (negb <$> edge_mask)
                         (canonical edge_index is_sorted)))
     ∧ ∀ edge_mask, r.2 ≠ BoolMask edge_mask).
Proof.
  intros H. split.
  - intros Hb. revert H. unfold mask_path.
    destruct ((p <? 0) || (1 <? p))%float; [discriminate|].
    destruct (negb (bool_decide _)); [discriminate|].
    assert (negb training || (p =? 0)%float = true) as ->.
    { destruct Hb as [-> | ->]; [done | apply orb_true_r]. }
    by intros [= <- _].
  - intros -> Hp. apply float_pos_neq_zero in Hp.
    apply (mask_path_training_inv _ _ _ _ _ _ _ _ _ _ Hp) in H
      as (edge_mask & Hlen & ->).
    split; [by exists edge_mask | discriminate].
Qed.

Lemma mask_path_second_component_witness :
  (∃ edge_mask,
     length edge_mask = 3%nat
     ∧ Edges [(0, 1); (1, 2); (2, 0)]
       = Edges (select (negb <$> edge_mask)
                  (canonical [(0, 1); (1, 2); (2, 0)] false)))
  ∧ ∀ edge_mask, Edges [(0, 1); (1, 2); (2, 0)] ≠ BoolMask edge_mask.
Proof.
  apply (mask_path_second_component [(0, 1); (1, 2); (2, 0)] 1 1 1 None
           "node" false true [] [] ([], Edges [(0, 1); (1, 2); (2, 0)]));
    reflexivity.
Defined.

(** C2: the two tensors [mask_edge] returns, and the two [mask_path] returns
    on the training path with [p > 0], split the columns of the edge index
    (of the canonical, source-sorted one for [mask_path]): together they are
    exactly its columns, and on an edge index without repeated columns no
    column is in both. *)
Theorem masks_partition_columns
    (edge_index : edge_index_t) (p : float)
    (walks_per_node walk_length : nat) (num_nodes : option Z)
    (start : string) (is_sorted : bool) (g : generator) :
  (∀ remaining masked g',
     mask_edge edge_index p g = (Ok (remaining, masked), g') →
     column_partition remaining masked edge_index)
  ∧ (∀ remaining masked g',
       (0 <? p)%float = true →
       mask_path edge_index p walks_per_node walk_length num_nodes start
         is_sorted true g = (Ok (remaining, Edges masked), g') →
       column_partition remaining masked (canonical edge_index is_sorted)
       ∧ ∀ c, c ∈ edge_index ↔ c ∈ remaining ∨ c ∈ masked).
Proof.
  split.
  - intros remaining masked g'. unfold mask_edge.
    destruct ((p <? 0) || (1 <? p))%float; [discriminate|]. intros H.
    apply bind_Ok_inv in H as (mask & g1 & Hb & H).
    apply ret_inv in H as [[= -> ->] ->].
    apply bernoulli_length in Hb.
    assert (mask = negb <$> (negb <$> mask)) as Hmm.
    { rewrite <- list_fmap_compose. symmetry. etrans; [|apply list_fmap_id].
      apply list_fmap_ext. intros _ b _. apply negb_involutive. }
    rewrite Hmm at 2. apply select_column_partition.
    by rewrite length_fmap.
  - intros remaining masked g' Hp H. apply float_pos_neq_zero in Hp.
    apply (mask_path_training_inv _ _ _ _ _ _ _ _ _ _ Hp) in H
      as (edge_mask & Hlen & [= -> ->]).
    pose proof (canonical_Permutation edge_index is_sorted) as HP.
    assert (column_partition
              (select edge_mask (canonical edge_index is_sorted))
              (select (negb <$> edge_mask) (canonical edge_index is_sorted))
              (canonical edge_index is_sorted)) as Hpart.
    { apply select_column_partition. by rewrite HP. }
    split; [done|]. intros c. destruct Hpart as (_ & <- & _).
    split; apply elem_of_Permutation_proper; [by symmetry | done].
Qed.

Lemma masks_partition_columns_witness :
  column_partition [(1, 2)] [(0, 1); (2, 0)] [(0, 1); (1, 2); (2, 0)]
  ∧ column_partition [(0, 1); (0, 2); (2, 0)] [(1, 0)]
      (canonical [(2, 0); (0, 1); (1, 0); (0, 2)] false).
Proof.
  destruct (masks_partition_columns [(0, 1); (1, 2); (2, 0)] 0.5 1 1 None
              "node" false [1; 16777215; 3]) as [He _].
  destruct (masks_partition_columns [(2, 0); (0, 1); (1, 0); (0, 2)] 0.25
              1 1 None "node" false [2]) as [_ Hp].
  split.
  - apply (He _ _ []). vm_compute. reflexivity.
  - apply (Hp _ _ []); vm_compute; reflexivity.
Defined.

(** ** Undirected symmetrization in the adapters *)

Lemma to_undirected_elem (edge_index : edge_index_t) (u v : Z) :
  (u, v) ∈ to_undirected edge_index
  ↔ (u, v) ∈ edge_index ∨ (v, u) ∈ edge_index.
Proof.
  unfold to_undirected. rewrite elem_of_remove_dups.
  assert ((u, v) ∈ prod_swap <$> edge_index ↔ (v, u) ∈ edge_index) as Hsw.
  { rewrite list_elem_of_fmap. split.
    - intros ([a b] & [= -> ->] & Hin). exact Hin.
    - intros Hin. by exists (v, u). }
  rewrite <- Hsw, <- elem_of_app.
  by rewrite (merge_sort_Permutation edge_le).
Qed.

Lemma to_undirected_closed (edge_index : edge_index_t) (u v : Z) :
  (u, v) ∈ to_undirected edge_index → (v, u) ∈ to_undirected edge_index.
Proof. rewrite !to_undirected_elem. tauto. Qed.

(** C9: with [undirected = True] the remaining set [MaskPath.forward] and
    [MaskEdge.forward] return is closed under reversal, and the second
    component is the one [mask_path] / [mask_edge] computed, as it is. *)
Theorem forward_remaining_symmetric
    (mp : MaskPath) (me : MaskEdge) (edge_index : edge_index_t)
    (g : generator) :
  (mp_undirected mp = true →
   ∀ r g', MaskPath_forward mp edge_index g = (Ok r, g') →
     (∀ u v, (u, v) ∈ r.1 → (v, u) ∈ r.1)
     ∧ ∃ remaining,
         mask_path edge_index (mp_p mp) (mp_walks_per_node mp)
           (mp_walk_length mp) (mp_num_nodes mp) (mp_start mp) false true g
         = (Ok (remaining, r.2), g')
         ∧ r.1 = to_undirected remaining)
  ∧ (me_undirected me = true →
     ∀ r g', MaskEdge_forward me edge_index g = (Ok r, g') →
       (∀ u v, (u, v) ∈ r.1 → (v, u) ∈ r.1)
       ∧ ∃ remaining,
           mask_edge edge_index (me_p me) g = (Ok (remaining, r.2), g')
           ∧ r.1 = to_undirected remaining).
Proof.
  split; intros Hu r g' H.
  - unfold MaskPath_forward in H. rewrite Hu in H.
    apply bind_Ok_inv in H as ([rem msk] & g1 & Hm & H).
    apply ret_inv in H as [-> ->]. simpl. split.
    + intros u v. apply to_undirected_closed.
    + by exists rem.
  - unfold MaskEdge_forward in H. rewrite Hu in H.
    apply bind_Ok_inv in H as ([rem msk] & g1 & Hm & H).
    apply ret_inv in H as [-> ->]. simpl. split.
    + intros u v. apply to_undirected_closed.
    + by exists rem.
Qed.

Lemma forward_remaining_symmetric_witness :
  (∀ u v, (u, v) ∈ [(0, 1); (0, 2); (1, 0); (2, 0)]
          → (v, u) ∈ [(0, 1); (0, 2); (1, 0); (2, 0)])
  ∧ (∀ u v, (u, v) ∈ [(1, 2); (2, 1)] → (v, u) ∈ [(1, 2); (2, 1)]).
Proof.
  pose (mp := {| mp_p := 0.25; mp_walks_per_node := 1; mp_walk_length := 1;
                 mp_start := "node"; mp_num_nodes := None;
                 mp_undirected := true |}).
  pose (me := {| me_p := 0.5; me_undirected := true |}).
  split.
  - destruct (forward_remaining_symmetric mp me
                [(2, 0); (0, 1); (1, 0); (0, 2)] [2]) as [Hp _].
    apply (Hp eq_refl ([(0, 1); (0, 2); (1, 0); (2, 0)], Edges [(1, 0)]) []).
    vm_compute. reflexivity.
  - destruct (forward_remaining_symmetric mp me
                [(0, 1); (1, 2); (2, 0)] [1; 16777215; 3]) as [_ He].
    apply (He eq_refl ([(1, 2); (2, 1)], [(0, 1); (2, 0)]) []).
    vm_compute. reflexivity.
Defined.

(** ** The random walks *)

Section walks.
Variables col rowptr : list Z.

(** What one walk appends to [e_id] is the list of the nodes it stepped
    from: the start node followed by all but the last node it reached.
    It takes at most [walk_length] steps. *)
Lemma walk_records_nodes walk_length node g ne g' :
  walk col rowptr walk_length node g = (Ok ne, g') →
  ne.2 = take (length ne.1) (node :: ne.1)
  ∧ (length ne.1 ≤ walk_length)%nat.
Proof.
  revert node g ne g'.
  induction walk_length as [|steps IH]; intros node g ne g' H; simpl in H.
  - apply ret_inv in H as [-> ->]. split; [done | simpl; lia].
  - apply bind_Ok_inv in H as (lo & g1 & _ & H).
    apply bind_Ok_inv in H as (hi & g2 & _ & H).
    destruct (length (py_slice col lo hi)) as [|n].
    + apply ret_inv in H as [-> ->]. split; [done | simpl; lia].
    + apply bind_Ok_inv in H as (i & g3 & _ & H).
      apply bind_Ok_inv in H as (next_node & g4 & _ & H).
      apply bind_Ok_inv in H as (ne' & g5 & Hw & H).
      apply ret_inv in H as [-> ->].
      apply IH in Hw as [He Hlen]. simpl. split; [|lia].
      f_equal. exact He.
Qed.

Lemma walk_lengths walk_length node g ne g' :
  walk col rowptr walk_length node g = (Ok ne, g') →
  length ne.2 = length ne.1 ∧ (length ne.2 ≤ walk_length)%nat.
Proof.
  intros H. apply walk_records_nodes in H as [-> Hlen].
  rewrite length_take. simpl. lia.
Qed.

(** Every walk appends one end marker, and as many entries to [e_id] as
    to [n_id] besides: the walks done are counted by the difference of
    the two lengths. *)
Lemma walks_from_count walk_length start acc g ne g' :
  walks_from col rowptr walk_length start acc g = (Ok ne, g') →
  (length ne.2 + length acc.1
   = length ne.1 + length acc.2 + length start)%nat.
Proof.
  revert acc g. induction start as [|node start IH]; intros acc g H;
    simpl in H.
  - apply ret_inv in H as [-> ->]. simpl. lia.
  - apply bind_Ok_inv in H as (w & g1 & Hw & H).
    apply walk_lengths in Hw as [Hw _].
    apply IH in H. simpl in H. rewrite !length_app in H. simpl in *. lia.
Qed.

Lemma walk_rounds_count walk_length start rounds acc g ne g' :
  walk_rounds col rowptr walk_length start rounds acc g = (Ok ne, g') →
  (length ne.2 + length acc.1
   = length ne.1 + length acc.2 + rounds * length start)%nat.
Proof.
  revert acc g. induction rounds as [|rounds IH]; intros acc g H;
    simpl in H.
  - apply ret_inv in H as [-> ->]. simpl. lia.
  - apply bind_Ok_inv in H as (acc' & g1 & Hf & H).
    apply walks_from_count in Hf. apply IH in H. lia.
Qed.
End walks.

Lemma length_tensor_repeat {A} (t : list A) (w : nat) :
  length (tensor_repeat t w) = (w * length t)%nat.
Proof.
  unfold tensor_repeat. induction w as [|w IH]; simpl; [done|].
  rewrite length_app, IH. done.
Qed.

(** ** Start nodes in 'node' mode *)

Lemma randint_range n g i g' :
  randint n g = (Ok i, g') → 0 ≤ i < Z.of_nat n.
Proof.
  destruct n as [|n]; [discriminate|]. unfold randint. intros H.
  apply bind_Ok_inv in H as (r & g1 & _ & H). apply ret_inv in H as [-> _].
  apply Z.mod_pos_bound. lia.
Qed.

Lemma tensor_get_lookup {A} (t : list A) (i : Z) :
  0 ≤ i < Z.of_nat (length t) →
  ∃ x, tensor_get t i = Ok x ∧ t !! Z.to_nat i = Some x.
Proof.
  intros Hi. unfold tensor_get, norm_index.
  rewrite (proj2 (andb_true_iff _ _)) by (split; [apply Z.leb_le | apply Z.ltb_lt]; lia).
  destruct (lookup_lt_is_Some_2 t (Z.to_nat i)) as [x Hx]; [lia|].
  exists x. by rewrite Hx.
Qed.

Lemma randperm_aux_Permutation pool g :
  ∃ perm g', randperm_aux (length pool) pool g = (Ok perm, g')
             ∧ perm ≡ₚ pool.
Proof.
  remember (length pool) as fuel eqn:Hfuel.
  revert pool g Hfuel. induction fuel as [|fuel IH]; intros pool g Hfuel.
  - destruct pool; [|discriminate]. by exists [], g.
  - cbn [randperm_aux].
    destruct (randint (length pool) g) as [[i|e] g1] eqn:Hi.
    2:{ rewrite <- Hfuel in Hi. unfold randint, bind, next_raw in Hi.
        destruct g; discriminate. }
    rewrite (bind_Ok _ _ _ _ _ Hi).
    apply randint_range in Hi.
    destruct (tensor_get_lookup pool i Hi) as (x & Hget & Hx).
    unfold lift at 1, bind at 1. rewrite Hget.
    destruct (IH (delete (Z.to_nat i) pool) g1) as (rest & g2 & Hrest & HP).
    { rewrite length_delete by eauto. lia. }
    rewrite (bind_Ok _ _ _ _ _ Hrest). exists (x :: rest), g2.
    split; [done|]. rewrite HP. symmetry. by apply delete_Permutation.
Qed.

(** [randperm n] cannot fail for [0 <= n] and is a permutation of
    [0 .. n-1]. *)
Lemma randperm_Permutation n g :
  0 ≤ n → ∃ perm g', randperm n g = (Ok perm, g') ∧ perm ≡ₚ seqZ 0 n.
Proof.
  intros Hn. unfold randperm.
  rewrite (proj2 (Z.ltb_ge _ _)) by done.
  rewrite <- (length_seqZ 0 n). apply randperm_aux_Permutation.
Qed.

Lemma randperm_Ok_Permutation n g perm g' :
  randperm n g = (Ok perm, g') → perm ≡ₚ seqZ 0 n.
Proof.
  intros H. destruct (Z.ltb_spec n 0) as [Hn|Hn].
  - unfold randperm in H. rewrite (proj2 (Z.ltb_lt _ _)) in H by done.
    discriminate.
  - destruct (randperm_Permutation n g Hn) as (perm' & g2 & H' & HP).
    rewrite H in H'. by injection H' as -> _.
Qed.

Lemma py_slice_sublist {A} (t : list A) (lo hi : Z) :
  py_slice t lo hi `sublist_of` t.
Proof.
  unfold py_slice. etrans; [apply sublist_take | apply sublist_drop].
Qed.

Lemma py_slice_prefix_length {A} (t : list A) (k : Z) :
  0 ≤ k ≤ Z.of_nat (length t) → length (py_slice t 0 k) = Z.to_nat k.
Proof.
  intros Hk. unfold py_slice.
  rewrite (proj2 (Z.ltb_ge 0 0)) by lia.
  rewrite (proj2 (Z.ltb_ge k 0)) by lia.
  rewrite length_take, length_drop. lia.
Qed.

(** In 'node' mode the walks are started from a duplicate-free selection of
    nodes of [0 .. N-1], [round(N * p)] of them when that count is within
    [0 .. N]; each selected node is walked from [walks_per_node] times
    [walks_per_node] times, since the repeated start list is itself walked
    through once per round. *)
Lemma node_mode_walk_count edge_index p walks_per_node walk_length
    num_nodes is_sorted g sw g' :
  let N := maybe_num_nodes edge_index num_nodes in
  mask_path_walks edge_index p walks_per_node walk_length num_nodes
    "node" is_sorted g = (Ok sw, g') →
  ∃ k selected,
    py_round (float_of_Z N * p)%float = Ok k
    ∧ NoDup selected
    ∧ (∀ v, v ∈ selected → 0 ≤ v < N)
    ∧ (0 ≤ k ≤ N → length selected = Z.to_nat k)
    ∧ (length sw.2.2
       = length sw.2.1
         + walks_per_node * (walks_per_node * length selected))%nat.
Proof.
  intros N H. unfold mask_path_walks in H. fold N in H.
  apply bind_Ok_inv in H as (start & g1 & Hs & H).
  apply bind_Ok_inv in H as (deg & g2 & _ & H).
  apply bind_Ok_inv in H as (ne & g3 & Hw & H).
  apply ret_inv in H as [-> ->]. simpl.
  unfold select_start in Hs. change (String.eqb "node" "edge") with false in Hs.
  cbv iota in Hs.
  apply bind_Ok_inv in Hs as (perm & g4 & Hperm & Hs).
  apply bind_Ok_inv in Hs as (k & g5 & Hk & Hs).
  apply lift_Ok_inv in Hk as [Hk ->]. apply ret_inv in Hs as [-> ->].
  apply randperm_Ok_Permutation in Hperm.
  exists k, (py_slice perm 0 k). split; [done|]. split; [|split; [|split]].
  - eapply sublist_NoDup; [|apply py_slice_sublist].
    rewrite Hperm. apply NoDup_seqZ.
  - intros v Hv.
    assert (v ∈ perm) as Hin.
    { eapply elem_of_submseteq; [exact Hv|].
      apply sublist_submseteq, py_slice_sublist. }
    rewrite Hperm in Hin. apply elem_of_seqZ in Hin. lia.
  - intros Hr. apply py_slice_prefix_length.
    rewrite Hperm, length_seqZ. lia.
  - apply walk_rounds_count in Hw. rewrite length_tensor_repeat in Hw.
    simpl in Hw. lia.
Qed.

(** ** What the walks mask *)

(** The training path once the three guards are passed. *)
Lemma mask_path_training_eq edge_index p walks_per_node walk_length
    num_nodes start is_sorted g :
  out_of_range p = false →
  start = "node"%string ∨ start = "edge"%string →
  (p =? 0)%float = false →
  mask_path edge_index p walks_per_node walk_length num_nodes start
    is_sorted true g
  = (sw <- mask_path_walks edge_index p walks_per_node walk_length
             num_nodes start is_sorted ;;
     edge_mask <- lift (index_put_false
                          (replicate (length edge_index) true)
                          (torch_tensor_dtype sw.2.2)
                          (filter (λ e, e ≠ -1) sw.2.2)) ;;
     ret (select edge_mask sw.1,
          Edges (select (negb <$> edge_mask) sw.1))) g.
Proof.
  unfold mask_path, out_of_range. intros -> Hs ->.
  rewrite bool_decide_eq_true_2 by (rewrite !elem_of_cons; tauto).
  done.
Qed.

(** A recorded node id that is no position of the edge mask makes the
    update of the mask fail. *)
Lemma index_put_false_out_of_bounds mask e_id v :
  v ∈ e_id → v ≠ -1 → norm_index (length mask) v = None →
  index_put_false mask (torch_tensor_dtype e_id) (filter (λ e, e ≠ -1) e_id)
  = Raise IndexError.
Proof.
  intros Hin Hv Hn. unfold index_put_false.
  destruct (torch_tensor_dtype e_id); [|done].
  rewrite mapM_None_2; [done|].
  apply Exists_exists. exists v. split; [|done].
  by apply list_elem_of_filter.
Qed.

Lemma walk_step col rowptr steps node lo hi g :
  tensor_get rowptr node = Ok lo →
  tensor_get rowptr (node + 1) = Ok hi →
  walk col rowptr (S steps) node g
  = match length (py_slice col lo hi) with
    | O => ret ([], [])
    | n =>
        i <- randint n ;;
        next_node <- lift (tensor_get (py_slice col lo hi) i) ;;
        ne <- walk col rowptr steps next_node ;;
        ret (next_node :: ne.1, node :: ne.2)
    end g.
Proof.
  intros Hlo Hhi. cbn [walk].
  unfold bind at 1, lift at 1. rewrite Hlo.
  unfold bind at 1, lift at 1. by rewrite Hhi.
Qed.

Lemma randint_one g : randint 1 g = (Ok 0, drop 1 g).
Proof.
  unfold randint, bind, next_raw, ret.
  destruct g as [|r g]; [done|]. simpl. by rewrite Z.mod_1_r.
Qed.

Lemma py_slice_all {A} (t : list A) :
  py_slice t 0 (Z.of_nat (length t)) = t.
Proof.
  unfold py_slice.
  rewrite (proj2 (Z.ltb_ge 0 0)) by lia.
  rewrite (proj2 (Z.ltb_ge (Z.of_nat (length t)) 0)) by lia.
  rewrite Z.min_id, Z.min_l, Z.sub_0_r, Nat2Z.id by lia.
  change (Z.to_nat 0) with 0%nat. rewrite drop_0. by apply take_ge.
Qed.

(** The graph with the single edge 5 -> 0 (six nodes, one edge): one
    target, 0, and the row pointer 0 0 0 0 0 0 1. *)
Lemma lone_edge_walk_from_5 g :
  walk [0] [0; 0; 0; 0; 0; 0; 1] 1 5 g = (Ok ([0], [5]), drop 1 g).
Proof.
  rewrite (walk_step _ _ _ _ 0 1) by reflexivity.
  change (length (py_slice [0] 0 1)) with 1%nat. cbv iota.
  by rewrite (bind_Ok _ _ _ _ _ (randint_one g)).
Qed.

Lemma lone_edge_walks start acc g :
  Forall (λ v, 0 ≤ v < 6) start →
  ∃ ne g', walks_from [0] [0; 0; 0; 0; 0; 0; 1] 1 start acc g = (Ok ne, g')
           ∧ (5 ∈ acc.2 ∨ 5 ∈ start → 5 ∈ ne.2).
Proof.
  intros Hall. revert acc g.
  induction Hall as [|v start Hv _ IH]; intros acc g.
  - exists acc, g. split; [done|].
    intros [H|H]; [done | by apply elem_of_nil in H].
  - cbn [walks_from].
    assert (∃ ne g1, walk [0] [0; 0; 0; 0; 0; 0; 1] 1 v g = (Ok ne, g1)
                     ∧ (v = 5 → 5 ∈ ne.2)) as (ne & g1 & Hw & H5).
    { assert (v = 0 ∨ v = 1 ∨ v = 2 ∨ v = 3 ∨ v = 4 ∨ v = 5)
        as [->|[->|[->|[->|[->| ->]]]]] by lia.
      1-5: by (exists ([], []), g; split; [reflexivity | lia]).
      exists ([0], [5]), (drop 1 g).
      split; [apply lone_edge_walk_from_5 | intros _; apply list_elem_of_here]. }
    rewrite (bind_Ok _ _ _ _ _ Hw).
    destruct (IH (acc.1 ++ ne.1, acc.2 ++ ne.2 ++ [-1]) g1)
      as (ne' & g2 & Hrest & Hin).
    exists ne', g2. split; [done|]. intros H. apply Hin. simpl.
    rewrite !elem_of_app. destruct H as [H|H]; [by left; left|].
    apply elem_of_cons in H as [H|H]; [|by right].
    left. right. left. by apply H5.
Qed.

Lemma select_start_node row p walks_per_node num_nodes g perm g1 k :
  randperm num_nodes g = (Ok perm, g1) →
  py_round (float_of_Z num_nodes * p) = Ok k →
  select_start row p walks_per_node num_nodes "node" g
  = (Ok (tensor_repeat (py_slice perm 0 k) walks_per_node), g1).
Proof.
  intros Hperm Hk. unfold select_start.
  change (String.eqb "node" "edge") with false. cbv iota.
  rewrite (bind_Ok _ _ _ _ _ Hperm). rewrite Hk. done.
Qed.

Lemma lone_edge_mask_path_walks (g : generator) :
  ∃ n_id e_id g',
    mask_path_walks [(5, 0)] 1 1 1 None "node" false g
    = (Ok ([(5, 0)], (n_id, e_id)), g')
    ∧ 5 ∈ e_id.
Proof.
  unfold mask_path_walks.
  change (maybe_num_nodes [(5, 0)] None) with 6.
  change (sort_edge_index [(5, 0)]) with [(5, 0)]. cbv iota.
  change (fst <$> [(5, 0)]) with [5].
  change (snd <$> [(5, 0)]) with [0].
  destruct (randperm_Permutation 6 g) as (perm & g1 & Hperm & HP); [lia|].
  assert (py_round (float_of_Z 6 * 1) = Ok 6) as Hk
    by (vm_compute; reflexivity).
  rewrite (bind_Ok _ _ _ _ _ (select_start_node [5] 1 1 6 g perm g1 6 Hperm Hk)).
  assert (py_slice perm 0 6 = perm) as ->.
  { rewrite <- (py_slice_all perm) at 2. f_equal.
    by rewrite HP. }
  unfold tensor_repeat. cbn [replicate concat]. rewrite app_nil_r.
  change (degree [5] 6) with (Ok [0; 0; 0; 0; 0; 1]).
  unfold lift at 1, bind at 1. cbn [walk_rounds].
  change (0 :: cumsum [0; 0; 0; 0; 0; 1]) with [0; 0; 0; 0; 0; 0; 1].
  destruct (lone_edge_walks perm ([], []) g1) as (ne & g2 & Hw & Hin).
  { rewrite HP. apply Forall_forall. intros v Hv.
    apply elem_of_seqZ in Hv. lia. }
  rewrite (bind_Ok _ _ _ _ _ (bind_Ok _ _ _ _ _ Hw)).
  unfold ret, bind. exists ne.1, ne.2, g2. split.
  - by destruct ne as [? ?].
  - apply Hin. right. rewrite HP. apply elem_of_seqZ. lia.
Qed.

(** C3, refuted on the code: the graph with the single edge 5 -> 0, p = 1,
    one walk of one step per node, start mode 'node'.  Node 5 is among the
    start nodes whatever the permutation drawn, its id is recorded in
    [e_id], and the edge mask has length 1: the update of the mask raises
    [IndexError] for every realization of the random choices. *)
Theorem lone_edge_mask_path_raises (g : generator) :
  (0 <=? 1)%float = true ∧ (1 <=? 1)%float = true
  ∧ (mask_path [(5, 0)] 1 1 1 None "node" false true g).1
    = Raise IndexError.
Proof.
  split; [reflexivity|]. split; [reflexivity|].
  rewrite mask_path_training_eq; [|reflexivity|by left|reflexivity].
  destruct (lone_edge_mask_path_walks g) as (n_id & e_id & g' & Hw & Hin).
  rewrite (bind_Ok _ _ _ _ _ Hw). cbn [fst snd].
  rewrite (index_put_false_out_of_bounds _ e_id 5); done.
Qed.

(** C1, refuted on the code: on the star 0 - 1, 0 - 2 (both directions,
    given unsorted), p = 0.25, one walk of one step, the realization that
    starts at node 2.  The walk goes 2 -> 0, so the nodes visited are 2 and
    0 and the edge traversed is (2,0); what [e_id] records is the node id
    2, and position 2 of the sorted edge index is the edge (1,0): the one
    masked column leaves node 1, which no walk visited, and the traversed
    edge stays in the remaining set. *)
Theorem star_masks_unvisited_edge :
  let edge_index := [(2, 0); (0, 1); (1, 0); (0, 2)] in
  let sorted := [(0, 1); (0, 2); (1, 0); (2, 0)] in
  select_start (sorted.*1) 0.25 1 3 "node" [2] = (Ok [2], [])
  ∧ mask_path_walks edge_index 0.25 1 1 None "node" false [2]
    = (Ok (sorted, ([0], [2; -1])), [])
  ∧ mask_path edge_index 0.25 1 1 None "node" false true [2]
    = (Ok ([(0, 1); (0, 2); (2, 0)], Edges [(1, 0)]), [])
  ∧ (∀ v, v ∈ [2; 0] → (1, 0).1 ≠ v)
  ∧ (2, 0) ∈ [(0, 1); (0, 2); (2, 0)].
Proof.
  cbv zeta. split; [vm_compute; reflexivity|].
  split; [vm_compute; reflexivity|].
  split; [vm_compute; reflexivity|].
  split.
  - intros v Hv. simpl.
    apply elem_of_cons in Hv as [->|Hv]; [lia|].
    apply elem_of_cons in Hv as [->|Hv]; [lia|].
    by apply elem_of_nil in Hv.
  - rewrite !elem_of_cons. tauto.
Qed.

(** C4, refuted on the code: on the 3-cycle with p = 1 and
    [walks_per_node = 2], round(p * N) = 3 start nodes are selected, and
    whatever the realization the number of walks done (end markers
    appended) is 2 * 2 * 3 = 12, not 2 * 3. *)
Theorem cycle_walks_counted_twice
    (g g' : generator) (sw : edge_index_t * (list Z * list Z)) :
  mask_path_walks [(0, 1); (1, 2); (2, 0)] 1 2 1 None "node" false g
  = (Ok sw, g') →
  py_round (float_of_Z (maybe_num_nodes [(0, 1); (1, 2); (2, 0)] None) * 1)
  = Ok 3
  ∧ (length sw.2.2 = length sw.2.1 + 12)%nat
  ∧ (12 ≠ 2 * 3)%nat.
Proof.
  intros H.
  assert (py_round
            (float_of_Z (maybe_num_nodes [(0, 1); (1, 2); (2, 0)] None) * 1)
          = Ok 3) as Hk by (vm_compute; reflexivity).
  split; [exact Hk|]. split; [|lia].
  apply node_mode_walk_count in H as (k & sel & Hk' & _ & _ & Hlen & Hcount).
  rewrite Hk in Hk'. injection Hk' as <-.
  rewrite Hcount, Hlen; [done|].
  change (maybe_num_nodes _ None) with 3. lia.
Qed.

Lemma cycle_walks_counted_twice_witness :
  let n_id := [1; 2; 0; 1; 2; 0; 1; 2; 0; 1; 2; 0] in
  let e_id := [0; -1; 1; -1; 2; -1; 0; -1; 1; -1; 2; -1;
               0; -1; 1; -1; 2; -1; 0; -1; 1; -1; 2; -1] in
  mask_path_walks [(0, 1); (1, 2); (2, 0)] 1 2 1 None "node" false []
  = (Ok ([(0, 1); (1, 2); (2, 0)], (n_id, e_id)), [])
  ∧ length e_id = (length n_id + 12)%nat.
Proof.
  intros n_id e_id.
  assert (mask_path_walks [(0, 1); (1, 2); (2, 0)] 1 2 1 None "node" false []
          = (Ok ([(0, 1); (1, 2); (2, 0)], (n_id, e_id)), [])) as H
    by (vm_compute; reflexivity).
  split; [exact H|].
  apply (cycle_walks_counted_twice [] [] _ H).
Defined.

(** * Further properties of the routines *)

(** ** [mask_node_features] *)

(** The output has one row per input row, and each row is either the input
    row kept as it is or a row of zeros of the same width: a node is masked
    as a whole. *)
Theorem mask_node_features_rowwise
    (x y : list (list float)) (q : float) (g g' : generator) :
  mask_node_features x q g = (Ok y, g') →
  length y = length x
  ∧ ∀ i row, x !! i = Some row →
      y !! i = Some row ∨ y !! i = Some (replicate (length row) 0%float).
Proof.
  unfold mask_node_features.
  destruct ((q <? 0) || (1 <? q))%float; [discriminate|]. intros H.
  apply bind_Ok_inv in H as (mask & g1 & Hb & H).
  apply ret_inv in H as [-> ->]. apply bernoulli_length in Hb. split.
  - rewrite length_zip_with. lia.
  - intros i row Hrow. rewrite lookup_zip_with, Hrow.
    destruct (lookup_lt_is_Some_2 mask i) as [b Hbi].
    { rewrite Hb. by eapply lookup_lt_Some. }
    rewrite Hbi. simpl. destruct b; [right | by left].
    f_equal. by apply const_fmap.
Qed.

Lemma mask_node_features_rowwise_witness :
  length [[0; 0]; [3; 4]]%float = length [[1; 2]; [3; 4]]%float.
Proof.
  apply (mask_node_features_rowwise [[1; 2]; [3; 4]]%float
           [[0; 0]; [3; 4]]%float 0.5 [1; 16777215] []).
  vm_compute. reflexivity.
Defined.

(** With [q = 0] the features come back unchanged; with [q = 1] every row
    comes back as zeros. *)
Theorem mask_node_features_extremes (x : list (list float)) (g : generator) :
  (mask_node_features x 0 g).1 = Ok x
  ∧ (mask_node_features x 1 g).1
    = Ok ((λ row, replicate (length row) 0%float) <$> x).
Proof.
  unfold mask_node_features.
  change ((0 <? 0) || (1 <? 0))%float with false.
  change ((1 <? 0) || (1 <? 1))%float with false. cbv iota.
  rewrite (bind_Ok _ _ _ _ _ (bernoulli_zero _ g)).
  rewrite (bind_Ok _ _ _ _ _ (bernoulli_one _ g)).
  unfold ret; simpl. split; f_equal.
  - induction x as [|row x IH]; simpl; [done|]. by rewrite IH.
  - induction x as [|row x IH]; csimpl; [done|]. rewrite IH. f_equal.
    by apply const_fmap.
Qed.

(** ** Order and size of the two selections *)

Lemma select_sublist {A} (mask : list bool) (t : list A) :
  select mask t `sublist_of` t.
Proof.
  revert t. induction mask as [|b mask IH]; intros [|x t]; simpl;
    try apply sublist_nil_l.
  destruct b; [by apply sublist_skip | by apply sublist_cons].
Qed.

Lemma select_lengths {A} (mask : list bool) (t : list A) :
  length mask = length t →
  (length (select mask t) + length (select (negb <$> mask) t)
   = length t)%nat.
Proof.
  intros Hlen. rewrite <- length_app.
  by rewrite (select_Permutation mask t Hlen).
Qed.

(** [mask_edge] filters: each of the two tensors keeps the order the columns
    have in the input, and their sizes add up to E. *)
Theorem mask_edge_stable
    (edge_index remaining masked : edge_index_t) (p : float)
    (g g' : generator) :
  mask_edge edge_index p g = (Ok (remaining, masked), g') →
  remaining `sublist_of` edge_index
  ∧ masked `sublist_of` edge_index
  ∧ (length remaining + length masked = length edge_index)%nat.
Proof.
  unfold mask_edge.
  destruct ((p <? 0) || (1 <? p))%float; [discriminate|]. intros H.
  apply bind_Ok_inv in H as (mask & g1 & Hb & H).
  apply ret_inv in H as [[= -> ->] ->].
  apply bernoulli_length in Hb.
  split; [apply select_sublist|]. split; [apply select_sublist|].
  rewrite Nat.add_comm.
  assert (mask = negb <$> (negb <$> mask)) as Hmm.
  { rewrite <- list_fmap_compose. symmetry. etrans; [|apply list_fmap_id].
    apply list_fmap_ext. intros _ b _. apply negb_involutive. }
  rewrite Hmm at 1. rewrite Nat.add_comm. apply select_lengths.
  by rewrite length_fmap.
Qed.

Lemma mask_edge_stable_witness :
  [(1, 2)] `sublist_of` [(0, 1); (1, 2); (2, 0)]
  ∧ [(0, 1); (2, 0)] `sublist_of` [(0, 1); (1, 2); (2, 0)]
  ∧ (length [(1, 2)] + length [(0, 1); (2, 0)]
     = length [(0, 1); (1, 2); (2, 0)])%nat.
Proof.
  apply (mask_edge_stable [(0, 1); (1, 2); (2, 0)] [(1, 2)]
           [(0, 1); (2, 0)] 0.5 [1; 16777215; 3] []).
  vm_compute. reflexivity.
Defined.

(** On the training path [mask_path] filters the canonical edge index the
    same way: both tensors keep its order and their sizes add up to E. *)
Theorem mask_path_stable
    (edge_index remaining masked : edge_index_t) (p : float)
    (walks_per_node walk_length : nat) (num_nodes : option Z)
    (start : string) (is_sorted : bool) (g g' : generator) :
  (p =? 0)%float = false →
  mask_path edge_index p walks_per_node walk_length num_nodes start
    is_sorted true g = (Ok (remaining, Edges masked), g') →
  remaining `sublist_of` canonical edge_index is_sorted
  ∧ masked `sublist_of` canonical edge_index is_sorted
  ∧ (length remaining + length masked = length edge_index)%nat.
Proof.
  intros Hp H.
  apply (mask_path_training_inv _ _ _ _ _ _ _ _ _ _ Hp) in H
    as (edge_mask & Hlen & [= -> ->]).
  split; [apply select_sublist|]. split; [apply select_sublist|].
  rewrite <- (Permutation_length (canonical_Permutation edge_index is_sorted)).
  apply select_lengths.
  by rewrite (Permutation_length (canonical_Permutation edge_index is_sorted)).
Qed.

Lemma mask_path_stable_witness :
  [(0, 1); (0, 2); (2, 0)] `sublist_of` canonical [(2, 0); (0, 1); (1, 0); (0, 2)] false
  ∧ [(1, 0)] `sublist_of` canonical [(2, 0); (0, 1); (1, 0); (0, 2)] false
  ∧ (length [(0, 1); (0, 2); (2, 0)] + length [(1, 0)]
     = length [(2, 0); (0, 1); (1, 0); (0, 2)])%nat.
Proof.
  apply (mask_path_stable [(2, 0); (0, 1); (1, 0); (0, 2)]
           [(0, 1); (0, 2); (2, 0)] [(1, 0)] 0.25 1 1 None "node" false
           [2] []); vm_compute; reflexivity.
Defined.

(** ** The adjacency index *)

Lemma cumsum_from_lookup (l : list Z) (acc : Z) (k : nat) :
  (k < length l)%nat →
  cumsum_from acc l !! k = Some (acc + Zsum (take (S k) l)).
Proof.
  revert acc k. induction l as [|x l IH]; intros acc k Hk; simpl in *; [lia|].
  destruct k as [|k]; simpl.
  - f_equal. unfold Zsum. destruct l; simpl; lia.
  - rewrite IH by lia. f_equal. unfold Zsum. simpl. lia.
Qed.

(** Entry [k] of the row pointer is the sum of the first [k] degrees. *)
Lemma rowptr_lookup (deg : list Z) (k : nat) :
  (k ≤ length deg)%nat →
  (0 :: cumsum deg) !! k = Some (Zsum (take k deg)).
Proof.
  intros Hk. destruct k as [|k]; simpl.
  - by destruct deg.
  - unfold cumsum. rewrite cumsum_from_lookup by lia. done.
Qed.

Lemma length_filter_split {A} (P Q R : A → Prop)
    `{!∀ x, Decision (P x)} `{!∀ x, Decision (Q x)} `{!∀ x, Decision (R x)}
    (l : list A) :
  (∀ x, R x ↔ P x ∨ Q x) → (∀ x, P x → Q x → False) →
  length (filter R l) = (length (filter P l) + length (filter Q l))%nat.
Proof.
  intros HR Hdis. induction l as [|x l IH]; [done|].
  rewrite !filter_cons.
  destruct (decide (R x)) as [Hr|Hr], (decide (P x)) as [Hp|Hp],
    (decide (Q x)) as [Hq|Hq]; simpl; rewrite ?IH; try lia;
    pose proof (HR x); pose proof (Hdis x); tauto.
Qed.

Lemma length_filter_fmap {A B} (f : A → B) (P : B → Prop)
    `{!∀ y, Decision (P y)} (l : list A) :
  length (filter P (f <$> l)) = length (filter (λ x, P (f x)) l).
Proof.
  induction l as [|x l IH]; [done|]. csimpl. rewrite !filter_cons.
  destruct (decide (P (f x))); simpl; by rewrite IH.
Qed.

(** The first [k] degrees add up to the number of sources below [k]. *)
Lemma Zsum_take_degree (row : list Z) (n : Z) (k : nat) :
  Z.of_nat k ≤ n →
  Zsum (take k ((λ i, Z.of_nat (length (filter (λ r, r = i) row)))
                  <$> seqZ 0 n))
  = Z.of_nat (length (filter (λ r, 0 ≤ r < Z.of_nat k) row)).
Proof.
  induction k as [|k IH]; intros Hk.
  - rewrite take_0. unfold Zsum. simpl.
    assert (filter (λ r, 0 ≤ r < Z.of_nat 0) row = []) as ->; [|done].
    induction row as [|r row IHr]; [done|].
    rewrite filter_cons_False by lia. exact IHr.
  - erewrite take_S_r.
    2:{ rewrite list_lookup_fmap, (lookup_seqZ_lt 0 n k) by lia. done. }
    unfold Zsum in *. rewrite foldr_app. simpl.
    assert (∀ (a : Z) l, foldr Z.add a l = foldr Z.add 0 l + a) as Hf.
    { intros a l. induction l as [|y l IHl]; simpl; lia. }
    rewrite Hf, IH by lia.
    rewrite (length_filter_split (λ r, 0 ≤ r < Z.of_nat k)
               (λ r, r = 0 + Z.of_nat k) (λ r, 0 ≤ r < Z.of_nat (S k)));
      lia.
Qed.

Lemma degree_Ok (row : list Z) (n : Z) :
  0 ≤ n → Forall (λ r, 0 ≤ r < n) row →
  degree row n
  = Ok ((λ i, Z.of_nat (length (filter (λ r, r = i) row))) <$> seqZ 0 n).
Proof.
  intros Hn Hrow. unfold degree.
  destruct (Z.ltb_spec n 0) as [Hn'|_]; [lia|].
  - rewrite (proj2 (forallb_forall _ _)); [done|].
    intros r Hr. rewrite Forall_forall in Hrow.
    apply list_elem_of_In in Hr. specialize (Hrow r Hr).
    apply andb_true_iff. split; [apply Z.leb_le | apply Z.ltb_lt]; lia.
Qed.

Lemma filter_none {A} (P : A → Prop) `{!∀ x, Decision (P x)} (l : list A) :
  Forall (λ x, ¬ P x) l → filter P l = [].
Proof.
  induction 1 as [|x l Hx _ IH]; [done|]. by rewrite filter_cons_False.
Qed.

Lemma filter_ext_Forall {A} (P Q : A → Prop)
    `{!∀ x, Decision (P x)} `{!∀ x, Decision (Q x)} (l : list A) :
  Forall (λ x, P x ↔ Q x) l → filter P l = filter Q l.
Proof.
  induction 1 as [|x l Hx _ IH]; [done|]. rewrite !filter_cons, IH.
  destruct (decide (P x)), (decide (Q x)); tauto.
Qed.

(** An edge index sorted by source is the run of the edges below [v], then
    the edges that leave [v], then the edges above. *)
Lemma sorted_split (l : list (Z * Z)) (v : Z) :
  sorted_by_source l →
  l = filter (λ c, c.1 < v) l ++ filter (λ c, c.1 = v) l
        ++ filter (λ c, v < c.1) l.
Proof.
  induction 1 as [|x l Hs IH Hx]; [done|].
  rewrite !filter_cons.
  destruct (decide (x.1 < v)) as [Hlt|Hlt]; simpl.
  { rewrite !decide_False by lia. by rewrite <- IH. }
  rewrite (filter_none (λ c : Z * Z, c.1 < v) l) in *
    by (eapply Forall_impl; [exact Hx | simpl; lia]).
  destruct (decide (x.1 = v)) as [Heq|Hne]; simpl in *.
  { rewrite decide_False by lia. by rewrite <- IH. }
  rewrite (filter_none (λ c : Z * Z, c.1 = v) l) in *
    by (eapply Forall_impl; [exact Hx | simpl; lia]).
  rewrite decide_True by lia. simpl in *. by rewrite <- IH.
Qed.

Lemma py_slice_take_drop {A} (t : list A) (lo hi : Z) :
  0 ≤ lo ≤ hi → hi ≤ Z.of_nat (length t) →
  py_slice t lo hi = take (Z.to_nat (hi - lo)) (drop (Z.to_nat lo) t).
Proof.
  intros Hlo Hhi. unfold py_slice.
  rewrite (proj2 (Z.ltb_ge lo 0)), (proj2 (Z.ltb_ge hi 0)) by lia.
  by rewrite !Z.min_l by lia.
Qed.

Lemma csr_slice_out_neighbors
    (edge_index : list (Z * Z)) (n v : Z) (deg : list Z) :
  valid_edge_index n edge_index →
  sorted_by_source edge_index →
  degree (fst <$> edge_index) n = Ok deg →
  0 ≤ v < n →
  ∃ lo hi,
    tensor_get (0 :: cumsum deg) v = Ok lo
    ∧ tensor_get (0 :: cumsum deg) (v + 1) = Ok hi
    ∧ py_slice (snd <$> edge_index) lo hi = out_neighbors edge_index v.
Proof.
  intros Hvalid Hsorted Hdeg Hv.
  assert (Forall (λ r, 0 ≤ r < n) (fst <$> edge_index)) as Hrow.
  { apply Forall_fmap. eapply Forall_impl; [exact Hvalid|]. simpl. tauto. }
  rewrite degree_Ok in Hdeg by (done || lia). injection Hdeg as <-.
  set (deg := (λ i, Z.of_nat (length (filter (λ r, r = i) (fst <$> edge_index))))
                <$> seqZ 0 n).
  assert (length deg = Z.to_nat n) as Hlen
    by (unfold deg; by rewrite length_fmap, length_seqZ).
  set (A := filter (λ c, c.1 < v) edge_index).
  set (B := filter (λ c, c.1 = v) edge_index).
  assert (∀ k : nat, Z.of_nat k ≤ n →
            (0 :: cumsum deg) !! k
            = Some (Z.of_nat (length (filter (λ c, c.1 < Z.of_nat k) edge_index))))
    as Hptr.
  { intros k Hk. rewrite rowptr_lookup by lia. f_equal.
    unfold deg. rewrite Zsum_take_degree by lia. f_equal.
    rewrite length_filter_fmap. f_equal.
    apply filter_ext_Forall. eapply Forall_impl; [exact Hvalid|].
    simpl. lia. }
  assert (length (filter (λ c, c.1 < v + 1) edge_index)
          = (length A + length B)%nat) as Hhi.
  { apply length_filter_split; intros; lia. }
  exists (Z.of_nat (length A)), (Z.of_nat (length A + length B)).
  assert (∀ (k : Z) x, 0 ≤ k ≤ n → (0 :: cumsum deg) !! Z.to_nat k = Some x
            → tensor_get (0 :: cumsum deg) k = Ok x) as Hget.
  { intros k x Hk Hx.
    destruct (tensor_get_lookup (0 :: cumsum deg) k) as (y & -> & Hy).
    - simpl. unfold cumsum.
      assert (∀ acc l, length (cumsum_from acc l) = length l) as Hcl.
      { intros acc l. revert acc. induction l; intros; simpl; auto. }
      rewrite Hcl. lia.
    - congruence. }
  split; [|split].
  - apply Hget; [lia|]. rewrite Hptr by lia. by rewrite Z2Nat.id by lia.
  - apply Hget; [lia|]. rewrite Hptr by lia. rewrite Z2Nat.id by lia.
    by rewrite Hhi.
  - pose proof (sorted_split edge_index v Hsorted) as Hsplit.
    fold A B in Hsplit.
    rewrite py_slice_take_drop.
    + replace (Z.to_nat (Z.of_nat (length A + length B) - Z.of_nat (length A)))
        with (length B) by lia.
      rewrite Nat2Z.id. unfold out_neighbors. fold B.
      rewrite <- fmap_drop, <- fmap_take. f_equal.
      rewrite Hsplit at 1.
      by rewrite drop_app_length, take_app_length.
    + lia.
    + rewrite length_fmap. rewrite <- Hhi.
      pose proof (length_filter (λ c, c.1 < v + 1) edge_index). lia.
Qed.

(** The adjacency index is right: for a valid edge index sorted by source,
    the slice of [col] between two consecutive row pointers of [v] holds
    exactly the targets of the edges that leave [v]. *)
Theorem csr_slice_is_out_neighbors
    (edge_index : list (Z * Z)) (n v : Z) (deg : list Z) :
  valid_edge_index n edge_index →
  sorted_by_source edge_index →
  degree (fst <$> edge_index) n = Ok deg →
  0 ≤ v < n →
  ∃ lo hi,
    tensor_get (0 :: cumsum deg) v = Ok lo
    ∧ tensor_get (0 :: cumsum deg) (v + 1) = Ok hi
    ∧ py_slice (snd <$> edge_index) lo hi = out_neighbors edge_index v.
Proof. apply csr_slice_out_neighbors. Qed.

Lemma csr_slice_is_out_neighbors_witness :
  ∃ lo hi,
    tensor_get (0 :: cumsum [2; 1; 1]) 0 = Ok lo
    ∧ tensor_get (0 :: cumsum [2; 1; 1]) (0 + 1) = Ok hi
    ∧ py_slice (snd <$> [(0, 1); (0, 2); (1, 0); (2, 0)]) lo hi
      = out_neighbors [(0, 1); (0, 2); (1, 0); (2, 0)] 0.
Proof.
  apply (csr_slice_is_out_neighbors [(0, 1); (0, 2); (1, 0); (2, 0)] 3 0).
  - repeat constructor; simpl; lia.
  - repeat constructor; simpl; lia.
  - reflexivity.
  - lia.
Defined.

(** ** Walks on a valid adjacency index *)

Lemma randint_total (n : nat) (g : generator) :
  (0 < n)%nat → ∃ i g', randint n g = (Ok i, g') ∧ 0 ≤ i < Z.of_nat n.
Proof.
  intros Hn. destruct (randint n g) as [[i|e] g'] eqn:Hr.
  - exists i, g'. split; [done|]. by eapply randint_range.
  - destruct n as [|n]; [lia|]. unfold randint, bind, next_raw in Hr.
    destruct g; discriminate.
Qed.

Lemma out_neighbors_edge (edges : list (Z * Z)) (v x : Z) :
  x ∈ out_neighbors edges v → (v, x) ∈ edges.
Proof.
  unfold out_neighbors. intros Hx.
  apply list_elem_of_fmap in Hx as ([a b] & -> & Hc).
  apply list_elem_of_filter in Hc as [Ha Hc]. simpl in *. by subst a.
Qed.

Lemma filter_all {A} (P : A → Prop) `{!∀ x, Decision (P x)} (l : list A) :
  Forall P l → filter P l = l.
Proof.
  induction 1 as [|x l Hx _ IH]; [done|].
  by rewrite filter_cons, decide_True, IH.
Qed.

Section valid_walks.
Variables (edges : list (Z * Z)) (n : Z) (deg : list Z).
Hypothesis Hvalid : valid_edge_index n edges.
Hypothesis Hsorted : sorted_by_source edges.
Hypothesis Hdeg : degree (fst <$> edges) n = Ok deg.

(** The steps recorded so far are edges of the graph: entry [i] of [e_id],
    end markers dropped, and entry [i] of [n_id] are the two ends. *)
Definition steps_are_edges (acc : list Z * list Z) : Prop :=
  Forall2 (λ u x, (u, x) ∈ edges) (filter (λ e, e ≠ -1) acc.2) acc.1.

Lemma walk_valid (walk_length : nat) (v : Z) (g : generator) :
  0 ≤ v < n →
  ∃ ne g',
    walk (snd <$> edges) (0 :: cumsum deg) walk_length v g = (Ok ne, g')
    ∧ Forall2 (λ u x, (u, x) ∈ edges) ne.2 ne.1
    ∧ Forall (λ u, 0 ≤ u < n) ne.2.
Proof.
  revert v g. induction walk_length as [|steps IH]; intros v g Hv.
  - exists ([], []), g. by repeat split; constructor.
  - destruct (csr_slice_out_neighbors edges n v deg Hvalid Hsorted Hdeg Hv)
      as (lo & hi & Hlo & Hhi & Hslice).
    rewrite (walk_step _ _ _ _ lo hi) by done. rewrite Hslice.
    destruct (length (out_neighbors edges v)) as [|m] eqn:Hlen.
    { exists ([], []), g. by repeat split; constructor. }
    destruct (randint_total (S m) g) as (i & g1 & Hi & Hrange); [lia|].
    rewrite (bind_Ok _ _ _ _ _ Hi).
    destruct (tensor_get_lookup (out_neighbors edges v) i)
      as (x & Hget & Hx); [lia|].
    unfold lift at 1, bind at 1. rewrite Hget.
    assert ((v, x) ∈ edges) as Hedge.
    { apply out_neighbors_edge, list_elem_of_lookup. eauto. }
    assert (0 ≤ x < n) as Hxn.
    { unfold valid_edge_index in Hvalid. rewrite Forall_forall in Hvalid.
      apply (Hvalid _ Hedge). }
    destruct (IH x g1 Hxn) as (ne & g2 & Hw & Hsteps & Hnodes).
    rewrite (bind_Ok _ _ _ _ _ Hw).
    exists (x :: ne.1, v :: ne.2), g2. simpl.
    split; [done|]. split; by constructor.
Qed.

Lemma walks_from_valid (walk_length : nat) (start : list Z)
    (acc : list Z * list Z) (g : generator) :
  Forall (λ v, 0 ≤ v < n) start →
  ∃ ne g',
    walks_from (snd <$> edges) (0 :: cumsum deg) walk_length start acc g
    = (Ok ne, g')
    ∧ (steps_are_edges acc → steps_are_edges ne).
Proof.
  intros Hstart. revert acc g.
  induction Hstart as [|v start Hv _ IH]; intros acc g.
  - by exists acc, g.
  - cbn [walks_from].
    destruct (walk_valid walk_length v g Hv) as (w & g1 & Hw & Hsteps & Hnodes).
    rewrite (bind_Ok _ _ _ _ _ Hw).
    destruct (IH (acc.1 ++ w.1, acc.2 ++ w.2 ++ [-1]) g1)
      as (ne & g2 & Hrest & Hinv).
    exists ne, g2. split; [done|]. intros Hacc. apply Hinv.
    unfold steps_are_edges in *. simpl.
    rewrite !filter_app.
    rewrite (filter_all (λ e, e ≠ -1) w.2)
      by (eapply Forall_impl; [exact Hnodes | simpl; lia]).
    rewrite (filter_none (λ e, e ≠ -1) [-1])
      by (repeat constructor; lia).
    rewrite app_nil_r. by apply Forall2_app.
Qed.

Lemma walk_rounds_valid (walk_length : nat) (start : list Z) (rounds : nat)
    (acc : list Z * list Z) (g : generator) :
  Forall (λ v, 0 ≤ v < n) start →
  ∃ ne g',
    walk_rounds (snd <$> edges) (0 :: cumsum deg) walk_length start rounds
      acc g = (Ok ne, g')
    ∧ (steps_are_edges acc → steps_are_edges ne).
Proof.
  intros Hstart. revert acc g.
  induction rounds as [|rounds IH]; intros acc g.
  - by exists acc, g.
  - cbn [walk_rounds].
    destruct (walks_from_valid walk_length start acc g Hstart)
      as (acc' & g1 & Hf & Hinv).
    rewrite (bind_Ok _ _ _ _ _ Hf).
    destruct (IH acc' g1) as (ne & g2 & Hr & Hinv').
    exists ne, g2. split; [done | tauto].
Qed.
End valid_walks.

#[local] Instance edge_le_transitive : Transitive edge_le.
Proof. intros [a1 a2] [b1 b2] [c1 c2]; unfold edge_le; simpl; lia. Qed.

#[local] Instance edge_le_total : Total edge_le.
Proof. intros [a1 a2] [b1 b2]; unfold edge_le; simpl; lia. Qed.

Lemma sort_edge_index_sorted (edge_index : edge_index_t) :
  sorted_by_source (sort_edge_index edge_index).
Proof.
  unfold sorted_by_source, sort_edge_index.
  pose proof (StronglySorted_merge_sort edge_le edge_index) as Hs.
  induction Hs as [|x l _ IH Hx]; constructor; [done|].
  eapply Forall_impl; [exact Hx|]. unfold edge_le. simpl. lia.
Qed.

Lemma canonical_sorted (edge_index : edge_index_t) (is_sorted : bool) :
  (is_sorted = true → sorted_by_source edge_index) →
  sorted_by_source (canonical edge_index is_sorted).
Proof.
  unfold canonical. destruct is_sorted; [auto|].
  intros _. apply sort_edge_index_sorted.
Qed.

Lemma canonical_valid (n : Z) (edge_index : edge_index_t) (is_sorted : bool) :
  valid_edge_index n edge_index →
  valid_edge_index n (canonical edge_index is_sorted).
Proof.
  unfold valid_edge_index. by rewrite canonical_Permutation.
Qed.

Lemma Forall_tensor_repeat {A} (P : A → Prop) (t : list A) (w : nat) :
  Forall P t → Forall P (tensor_repeat t w).
Proof.
  intros Ht. unfold tensor_repeat. induction w as [|w IH]; simpl.
  - constructor.
  - by apply Forall_app.
Qed.

Lemma Forall_of_sublist {A} (P : A → Prop) (l k : list A) :
  l `sublist_of` k → Forall P k → Forall P l.
Proof.
  intros Hsub. rewrite !Forall_forall. intros Hk x Hx. apply Hk.
  eapply elem_of_submseteq; [exact Hx | by apply sublist_submseteq].
Qed.

Lemma rand_le_total (p : float) (n : nat) (g : generator) :
  ∃ bs, rand_le p n g = (Ok bs, drop n g) ∧ length bs = n.
Proof.
  unfold rand_le.
  destruct (draw_units_spec n g) as (us & Hus & Hlen & _).
  rewrite (bind_Ok _ _ _ _ _ Hus). unfold ret.
  eexists. split; [done|]. by rewrite length_fmap.
Qed.

(** The start nodes are nodes of the graph. *)
Lemma select_start_range row p walks_per_node num_nodes start g st g1 :
  Forall (λ r, 0 ≤ r < num_nodes) row →
  select_start row p walks_per_node num_nodes start g = (Ok st, g1) →
  Forall (λ v, 0 ≤ v < num_nodes) st.
Proof.
  intros Hrow. unfold select_start.
  destruct (String.eqb start "edge"); intros H.
  - apply bind_Ok_inv in H as (mask & g2 & _ & H).
    apply ret_inv in H as [-> ->]. apply Forall_tensor_repeat.
    eapply Forall_of_sublist; [apply select_sublist | done].
  - apply bind_Ok_inv in H as (perm & g2 & Hperm & H).
    apply bind_Ok_inv in H as (k & g3 & _ & H).
    apply ret_inv in H as [-> ->]. apply Forall_tensor_repeat.
    eapply Forall_of_sublist; [apply py_slice_sublist|].
    apply randperm_Ok_Permutation in Hperm. rewrite Hperm.
    apply Forall_forall. intros v Hv. apply elem_of_seqZ in Hv. lia.
Qed.

(** Once the start nodes are drawn, the walk phase on a valid edge index
    cannot fail, it records only edges of the graph, and it does one walk
    per entry of the start list and round. *)
Lemma mask_path_walks_from_start edge_index p walks_per_node walk_length
    num_nodes start is_sorted g st g1 :
  let N := maybe_num_nodes edge_index num_nodes in
  0 ≤ N →
  valid_edge_index N edge_index →
  (is_sorted = true → sorted_by_source edge_index) →
  select_start (fst <$> canonical edge_index is_sorted) p walks_per_node N
    start g = (Ok st, g1) →
  ∃ ne g',
    mask_path_walks edge_index p walks_per_node walk_length num_nodes start
      is_sorted g = (Ok (canonical edge_index is_sorted, ne), g')
    ∧ Forall2 (λ u x, (u, x) ∈ edge_index) (filter (λ e, e ≠ -1) ne.2) ne.1
    ∧ (length ne.2 = length ne.1 + walks_per_node * length st)%nat.
Proof.
  intros N HN Hvalid Hsorted Hst.
  pose proof (canonical_valid N edge_index is_sorted Hvalid) as Hcv.
  pose proof (canonical_sorted edge_index is_sorted Hsorted) as Hcs.
  assert (Forall (λ r, 0 ≤ r < N) (fst <$> canonical edge_index is_sorted))
    as Hrow.
  { apply Forall_fmap. eapply Forall_impl; [exact Hcv|]. simpl. tauto. }
  pose proof (degree_Ok _ N HN Hrow) as Hdeg.
  pose proof (select_start_range _ _ _ _ _ _ _ _ Hrow Hst) as Hrange.
  destruct (walk_rounds_valid (canonical edge_index is_sorted) N _ Hcv Hcs
              Hdeg walk_length st walks_per_node ([], []) g1 Hrange)
    as (ne & g2 & Hw & Hinv).
  exists ne, g2. split; [|split].
  - unfold mask_path_walks. fold N. fold (canonical edge_index is_sorted).
    rewrite (bind_Ok _ _ _ _ _ Hst).
    unfold lift at 1, bind at 1. rewrite Hdeg.
    by rewrite (bind_Ok _ _ _ _ _ Hw).
  - assert (steps_are_edges (canonical edge_index is_sorted) ne) as Hsteps
      by (apply Hinv; constructor).
    unfold steps_are_edges in Hsteps.
    eapply Forall2_impl; [exact Hsteps|]. intros u x Hux. simpl in Hux.
    by rewrite <- (canonical_Permutation edge_index is_sorted).
  - apply walk_rounds_count in Hw. simpl in Hw. lia.
Qed.

(** Whenever the walk phase returns on a valid edge index, every recorded
    step is an edge of the graph: with the end markers dropped, entry [i]
    of [e_id] is the node the step left and entry [i] of [n_id] the node
    it reached. *)
Theorem walks_follow_edges
    (edge_index : edge_index_t) (p : float)
    (walks_per_node walk_length : nat) (num_nodes : option Z)
    (start : string) (is_sorted : bool) (g g' : generator)
    (sw : edge_index_t * (list Z * list Z)) :
  valid_edge_index (maybe_num_nodes edge_index num_nodes) edge_index →
  (is_sorted = true → sorted_by_source edge_index) →
  mask_path_walks edge_index p walks_per_node walk_length num_nodes start
    is_sorted g = (Ok sw, g') →
  Forall2 (λ u x, (u, x) ∈ edge_index)
    (filter (λ e, e ≠ -1) sw.2.2) sw.2.1.
Proof.
  intros Hvalid Hsorted H. pose proof H as H0.
  unfold mask_path_walks in H0. fold (canonical edge_index is_sorted) in H0.
  apply bind_Ok_inv in H0 as (st & g1 & Hst & H0).
  apply bind_Ok_inv in H0 as (deg & g2 & Hdeg & _).
  apply lift_Ok_inv in Hdeg as [Hdeg _].
  assert (0 ≤ maybe_num_nodes edge_index num_nodes) as HN.
  { unfold degree in Hdeg.
    destruct (Z.ltb_spec (maybe_num_nodes edge_index num_nodes) 0);
      [discriminate | done]. }
  destruct (mask_path_walks_from_start edge_index p walks_per_node
              walk_length num_nodes start is_sorted g st g1 HN Hvalid
              Hsorted Hst) as (ne & g3 & Hw & Hsteps & _).
  rewrite H in Hw. by injection Hw as -> _.
Qed.

Lemma walks_follow_edges_witness :
  Forall2 (λ u x, (u, x) ∈ [(0, 1); (1, 2); (2, 0)])
    (filter (λ e, e ≠ -1) [0; 1; 2; -1; 1; 2; 0; -1; 2; 0; 1; -1])
    [1; 2; 0; 2; 0; 1; 0; 1; 2].
Proof.
  apply (walks_follow_edges [(0, 1); (1, 2); (2, 0)] 1 1 3 None "node"
           false [] []
           ([(0, 1); (1, 2); (2, 0)],
            ([1; 2; 0; 2; 0; 1; 0; 1; 2],
             [0; 1; 2; -1; 1; 2; 0; -1; 2; 0; 1; -1]))).
  - repeat constructor; simpl; lia.
  - discriminate.
  - vm_compute. reflexivity.
Defined.

(** In 'edge' mode the walk phase never fails on a valid edge index,
    whatever the probability: a node without out-edges just ends its
    walk. *)
Theorem edge_mode_walks_never_fail
    (edge_index : edge_index_t) (p : float)
    (walks_per_node walk_length : nat) (num_nodes : option Z)
    (is_sorted : bool) (g : generator) :
  0 ≤ maybe_num_nodes edge_index num_nodes →
  valid_edge_index (maybe_num_nodes edge_index num_nodes) edge_index →
  (is_sorted = true → sorted_by_source edge_index) →
  ∃ ne g',
    mask_path_walks edge_index p walks_per_node walk_length num_nodes
      "edge" is_sorted g = (Ok (canonical edge_index is_sorted, ne), g').
Proof.
  intros HN Hvalid Hsorted.
  destruct (rand_le_total p
              (length (fst <$> canonical edge_index is_sorted)) g)
    as (bs & Hbs & _).
  assert (select_start (fst <$> canonical edge_index is_sorted) p
            walks_per_node (maybe_num_nodes edge_index num_nodes) "edge" g
          = (Ok (tensor_repeat
                   (select bs (fst <$> canonical edge_index is_sorted))
                   walks_per_node),
             drop (length (fst <$> canonical edge_index is_sorted)) g))
    as Hst.
  { unfold select_start. change (String.eqb "edge" "edge") with true.
    cbv iota. by rewrite (bind_Ok _ _ _ _ _ Hbs). }
  destruct (mask_path_walks_from_start edge_index p walks_per_node
              walk_length num_nodes "edge" is_sorted g _ _ HN Hvalid
              Hsorted Hst) as (ne & g3 & Hw & _).
  by exists ne, g3.
Qed.

Lemma edge_mode_walks_never_fail_witness :
  ∃ ne g',
    mask_path_walks [(5, 0); (0, 3)] 0.5 2 3 (Some 7) "edge" false [1; 2]
    = (Ok (canonical [(5, 0); (0, 3)] false, ne), g').
Proof.
  apply (edge_mode_walks_never_fail [(5, 0); (0, 3)] 0.5 2 3 (Some 7)
           false [1; 2]).
  - simpl. lia.
  - repeat constructor; simpl; lia.
  - discriminate.
Defined.

(** ** Which positions the update of the edge mask clears *)

Lemma insert_false_lookup_same (m : list bool) (k : nat) :
  <[k := false]> m !! k = (λ _, false) <$> (m !! k).
Proof.
  destruct (decide (k < length m)%nat) as [Hk|Hk].
  - rewrite list_lookup_insert_eq by done.
    destruct (lookup_lt_is_Some_2 m k Hk) as [b ->]. done.
  - rewrite !lookup_ge_None_2; [done | lia | rewrite length_insert; lia].
Qed.

Lemma foldl_insert_false_lookup (ks : list nat) (m : list bool) (i : nat) :
  foldl (λ m k, <[k := false]> m) m ks !! i
  = if decide (i ∈ ks) then (λ _, false) <$> (m !! i) else m !! i.
Proof.
  revert m. induction ks as [|k ks IH]; intros m; simpl.
  - destruct (decide (i ∈ [])) as [H|_]; [by apply elem_of_nil in H | done].
  - rewrite IH.
    destruct (decide (i = k)) as [->|Hne].
    + rewrite (decide_True (P := k ∈ k :: ks)) by apply list_elem_of_here.
      rewrite insert_false_lookup_same.
      destruct (decide (k ∈ ks)); [|done]. by destruct (m !! k).
    + rewrite list_lookup_insert_ne by done.
      destruct (decide (i ∈ ks)) as [Hin|Hin].
      * rewrite decide_True; [done | by apply list_elem_of_further].
      * rewrite decide_False; [done|].
        rewrite elem_of_cons. tauto.
Qed.

Lemma Forall2_elem_of_r {A B} (f : A → option B) (l : list A) (k : list B)
    (y : B) :
  Forall2 (λ x z, f x = Some z) l k →
  y ∈ k ↔ ∃ x, x ∈ l ∧ f x = Some y.
Proof.
  induction 1 as [|x z l k Hxz _ IH].
  - split; [intros H; by apply elem_of_nil in H|].
    intros (x & H & _). by apply elem_of_nil in H.
  - rewrite elem_of_cons, IH. split.
    + intros [->|(x' & Hin & Hf)].
      * exists x. split; [apply list_elem_of_here | done].
      * exists x'. split; [by apply list_elem_of_further | done].
    + intros (x' & Hin & Hf). apply elem_of_cons in Hin as [->|Hin].
      * left. congruence.
      * right. eauto.
Qed.

(** A successful [mask[idx] = False] clears exactly the positions the
    indices denote and leaves the others as they were. *)
Lemma index_put_false_lookup mask dt idx mask' (i : nat) :
  index_put_false mask dt idx = Ok mask' →
  (i < length mask)%nat →
  mask' !! i = Some false
  ↔ mask !! i = Some false
    ∨ ∃ e, e ∈ idx ∧ norm_index (length mask) e = Some i.
Proof.
  unfold index_put_false. destruct dt; [|discriminate].
  destruct (mapM _ idx) as [ks|] eqn:Hks; [|discriminate].
  intros [= <-] Hi. apply mapM_Some in Hks.
  rewrite foldl_insert_false_lookup.
  rewrite <- (Forall2_elem_of_r _ _ _ i Hks).
  destruct (lookup_lt_is_Some_2 mask i Hi) as [b Hb]. rewrite Hb.
  destruct (decide (i ∈ ks)); simpl; [tauto|].
  split; [tauto | intros [?|?]; [done | tauto]].
Qed.

(** On the training path the columns sent to the masked tensor are those at
    the positions that occur in [e_id] (end markers aside): what a walk
    appends to [e_id], the id of the node it steps from, is used as a
    position of the sorted edge index. *)
Theorem mask_path_clears_recorded_positions
    (edge_index remaining masked : edge_index_t) (p : float)
    (walks_per_node walk_length : nat) (num_nodes : option Z)
    (start : string) (is_sorted : bool) (g g' : generator) :
  (p =? 0)%float = false →
  mask_path edge_index p walks_per_node walk_length num_nodes start
    is_sorted true g = (Ok (remaining, Edges masked), g') →
  ∃ sw g1 edge_mask,
    mask_path_walks edge_index p walks_per_node walk_length num_nodes start
      is_sorted g = (Ok sw, g1)
    ∧ length edge_mask = length edge_index
    ∧ remaining = select edge_mask sw.1
    ∧ masked = select (negb <$> edge_mask) sw.1
    ∧ ∀ i : nat, (i < length edge_index)%nat →
        edge_mask !! i = Some false
        ↔ ∃ e, e ∈ sw.2.2 ∧ e ≠ -1
               ∧ norm_index (length edge_index) e = Some i.
Proof.
  intros Hp. unfold mask_path. rewrite Hp.
  destruct ((p <? 0) || (1 <? p))%float; [discriminate|].
  destruct (negb (bool_decide _)); [discriminate|].
  cbn [negb orb]. intros H.
  apply bind_Ok_inv in H as (sw & g1 & Hw & H).
  apply bind_Ok_inv in H as (edge_mask & g2 & Hm & H).
  apply lift_Ok_inv in Hm as [Hm ->].
  apply ret_inv in H as [[= -> ->] ->].
  exists sw, g1, edge_mask. split; [done|].
  pose proof (index_put_false_length _ _ _ _ Hm) as Hlen.
  rewrite length_replicate in Hlen.
  split; [done|]. split; [done|]. split; [done|].
  intros i Hi.
  rewrite (index_put_false_lookup _ _ _ _ i Hm)
    by (by rewrite length_replicate).
  rewrite length_replicate, lookup_replicate_2 by done. split.
  - intros [?|(e & He & Hn)]; [done|].
    apply list_elem_of_filter in He as [Hne He]. eauto.
  - intros (e & He & Hne & Hn). right. exists e. split; [|done].
    by apply list_elem_of_filter.
Qed.

Lemma mask_path_clears_recorded_positions_witness :
  ∃ sw g1 edge_mask,
    mask_path_walks [(2, 0); (0, 1); (1, 0); (0, 2)] 0.25 1 1 None "node"
      false [2] = (Ok sw, g1)
    ∧ length edge_mask = 4%nat
    ∧ [(0, 1); (0, 2); (2, 0)] = select edge_mask sw.1
    ∧ [(1, 0)] = select (negb <$> edge_mask) sw.1
    ∧ ∀ i : nat, (i < 4)%nat →
        edge_mask !! i = Some false
        ↔ ∃ e, e ∈ sw.2.2 ∧ e ≠ -1 ∧ norm_index 4 e = Some i.
Proof.
  apply (mask_path_clears_recorded_positions
           [(2, 0); (0, 1); (1, 0); (0, 2)] [(0, 1); (0, 2); (2, 0)]
           [(1, 0)] 0.25 1 1 None "node" false [2] []);
    vm_compute; reflexivity.
Defined.

(** ** How much is masked *)

Lemma select_negb_length {A} (mask : list bool) (t : list A) :
  (length (select (negb <$> mask) t) ≤ cleared_count mask)%nat.
Proof.
  unfold cleared_count. revert t.
  induction mask as [|b mask IH]; intros [|x t]; csimpl; try lia.
  rewrite filter_cons. specialize (IH t).
  destruct b; simpl; [done | lia].
Qed.

Lemma insert_false_cleared (mask : list bool) (k : nat) :
  (cleared_count (<[k := false]> mask) ≤ S (cleared_count mask))%nat.
Proof.
  unfold cleared_count. revert k.
  induction mask as [|b mask IH]; intros [|k]; simpl; try lia.
  - rewrite !filter_cons. simpl. destruct b; simpl; lia.
  - rewrite !filter_cons. specialize (IH k).
    destruct (decide (b = false)); simpl; lia.
Qed.

Lemma foldl_insert_false_cleared (ks : list nat) (mask : list bool) :
  (cleared_count (foldl (λ m k, <[k := false]> m) mask ks)
   ≤ cleared_count mask + length ks)%nat.
Proof.
  revert mask. induction ks as [|k ks IH]; intros mask; simpl; [lia|].
  specialize (IH (<[k := false]> mask)).
  pose proof (insert_false_cleared mask k). lia.
Qed.

Lemma index_put_false_cleared n dt idx mask' :
  index_put_false (replicate n true) dt idx = Ok mask' →
  (cleared_count mask' ≤ length idx)%nat.
Proof.
  unfold index_put_false. destruct dt; [|discriminate].
  destruct (mapM _ idx) as [ks|] eqn:Hks; [|discriminate].
  intros [= <-]. apply mapM_Some, Forall2_length in Hks.
  pose proof (foldl_insert_false_cleared ks (replicate n true)) as Hc.
  assert (cleared_count (replicate n true) = 0%nat) as Hz.
  { unfold cleared_count. clear. induction n; [done|]. simpl.
    by rewrite filter_cons_False. }
  lia.
Qed.

Section step_counts.
Variables col rowptr : list Z.

Lemma walks_from_steps walk_length start acc g ne g' :
  walks_from col rowptr walk_length start acc g = (Ok ne, g') →
  (length (filter (λ e : Z, (e ≠ -1)%Z) acc.2) ≤ length acc.1 →
   length (filter (λ e : Z, (e ≠ -1)%Z) ne.2) ≤ length ne.1)%nat
  ∧ (length ne.1 ≤ length acc.1 + length start * walk_length)%nat.
Proof.
  revert acc g. induction start as [|node start IH]; intros acc g H;
    simpl in H.
  - apply ret_inv in H as [-> ->]. split; [done | lia].
  - apply bind_Ok_inv in H as (w & g1 & Hw & H).
    apply walk_lengths in Hw as [Hw Hl].
    apply IH in H as [H1 H2]. simpl in *. split.
    + intros Hacc. apply H1. rewrite !filter_app, !length_app.
      pose proof (length_filter (λ e, e ≠ -1) w.2).
      rewrite (filter_none (λ e, e ≠ -1) [-1]) by (repeat constructor; lia).
      simpl. lia.
    + rewrite length_app in H2. lia.
Qed.

Lemma walk_rounds_steps walk_length start rounds acc g ne g' :
  walk_rounds col rowptr walk_length start rounds acc g = (Ok ne, g') →
  (length (filter (λ e : Z, (e ≠ -1)%Z) acc.2) ≤ length acc.1 →
   length (filter (λ e : Z, (e ≠ -1)%Z) ne.2) ≤ length ne.1)%nat
  ∧ (length ne.1
     ≤ length acc.1 + rounds * (length start * walk_length))%nat.
Proof.
  revert acc g. induction rounds as [|rounds IH]; intros acc g H;
    simpl in H.
  - apply ret_inv in H as [-> ->]. split; [done | lia].
  - apply bind_Ok_inv in H as (acc' & g1 & Hf & H).
    apply walks_from_steps in Hf as [Hf1 Hf2].
    apply IH in H as [H1 H2]. split; [tauto | lia].
Qed.
End step_counts.

(** On the training path no more columns are masked than steps were taken,
    and no more steps are taken than [walk_length] for each walk done (the
    walks done being counted by the end markers, the difference of the
    lengths of [e_id] and [n_id]). *)
Theorem mask_path_masked_bound
    (edge_index remaining masked : edge_index_t) (p : float)
    (walks_per_node walk_length : nat) (num_nodes : option Z)
    (start : string) (is_sorted : bool) (g g' : generator) :
  (p =? 0)%float = false →
  mask_path edge_index p walks_per_node walk_length num_nodes start
    is_sorted true g = (Ok (remaining, Edges masked), g') →
  ∃ sw g1,
    mask_path_walks edge_index p walks_per_node walk_length num_nodes start
      is_sorted g = (Ok sw, g1)
    ∧ (length masked ≤ length sw.2.1)%nat
    ∧ (length sw.2.1
       ≤ (length sw.2.2 - length sw.2.1) * walk_length)%nat.
Proof.
  intros Hp. unfold mask_path. rewrite Hp.
  destruct ((p <? 0) || (1 <? p))%float; [discriminate|].
  destruct (negb (bool_decide _)); [discriminate|].
  cbn [negb orb]. intros H.
  apply bind_Ok_inv in H as (sw & g1 & Hw & H).
  apply bind_Ok_inv in H as (edge_mask & g2 & Hm & H).
  apply lift_Ok_inv in Hm as [Hm ->].
  apply ret_inv in H as [[= -> ->] ->].
  exists sw, g1. split; [done|].
  pose proof Hw as Hw'. unfold mask_path_walks in Hw'.
  apply bind_Ok_inv in Hw' as (st & g3 & _ & Hw').
  apply bind_Ok_inv in Hw' as (deg & g4 & _ & Hw').
  apply bind_Ok_inv in Hw' as (ne & g5 & Hr & Hw').
  apply ret_inv in Hw' as [-> ->]. simpl in *.
  pose proof (walk_rounds_count _ _ _ _ _ _ _ _ _ Hr) as Hcount.
  apply walk_rounds_steps in Hr as [Hfilter Hsteps]. simpl in *.
  specialize (Hfilter ltac:(lia)).
  apply index_put_false_cleared in Hm.
  pose proof (select_negb_length edge_mask
                (if is_sorted then edge_index
                 else sort_edge_index edge_index)).
  split.
  - eapply Nat.le_trans; [exact H|].
    eapply Nat.le_trans; [exact Hm | exact Hfilter].
  - replace (length ne.2 - length ne.1)%nat
      with (walks_per_node * length st)%nat by lia.
    lia.
Qed.

Lemma mask_path_masked_bound_witness :
  ∃ sw g1,
    mask_path_walks [(0, 1); (1, 2); (2, 0)] 1 1 3 None "node" false []
    = (Ok sw, g1)
    ∧ (length [(0, 1); (1, 2); (2, 0)] ≤ length sw.2.1)%nat
    ∧ (length sw.2.1 ≤ (length sw.2.2 - length sw.2.1) * 3)%nat.
Proof.
  apply (mask_path_masked_bound [(0, 1); (1, 2); (2, 0)] []
           [(0, 1); (1, 2); (2, 0)] 1 1 3 None "node" false [] []);
    vm_compute; reflexivity.
Defined.

(** ** When the training path returns *)

Lemma py_slice_prefix_min {A} (t : list A) (k : Z) :
  0 ≤ k →
  length (py_slice t 0 k) = Z.to_nat (Z.min k (Z.of_nat (length t))).
Proof.
  intros Hk. unfold py_slice.
  rewrite (proj2 (Z.ltb_ge 0 0)) by lia.
  rewrite (proj2 (Z.ltb_ge k 0)) by lia.
  rewrite length_take, length_drop. lia.
Qed.

Lemma Forall2_Forall_left {A B} (P : A → B → Prop) (Q : A → Prop)
    (l : list A) (k : list B) :
  (∀ x y, P x y → Q x) → Forall2 P l k → Forall Q l.
Proof. intros HPQ. induction 1; constructor; eauto. Qed.

(** In 'node' mode, on a valid edge index with at least one node and no
    more nodes than edges, with at least one start node selected and
    [walks_per_node >= 1], the call cannot fail: every recorded node id is
    then a position of the edge mask. *)
Theorem node_mode_mask_path_returns
    (edge_index : edge_index_t) (p : float)
    (walks_per_node walk_length : nat) (num_nodes : option Z)
    (is_sorted : bool) (g : generator) (k : Z) :
  let N := maybe_num_nodes edge_index num_nodes in
  out_of_range p = false →
  (p =? 0)%float = false →
  1 ≤ N ≤ Z.of_nat (length edge_index) →
  valid_edge_index N edge_index →
  (is_sorted = true → sorted_by_source edge_index) →
  py_round (float_of_Z N * p) = Ok k →
  1 ≤ k →
  (1 ≤ walks_per_node)%nat →
  ∃ remaining masked g',
    mask_path edge_index p walks_per_node walk_length num_nodes "node"
      is_sorted true g = (Ok (remaining, Edges masked), g').
Proof.
  intros N Hrange Hp HN Hvalid Hsorted Hk Hk1 HW.
  rewrite mask_path_training_eq by (done || by left).
  destruct (randperm_Permutation N g) as (perm & g1 & Hperm & HP); [lia|].
  pose proof (select_start_node (fst <$> canonical edge_index is_sorted) p
                walks_per_node N g perm g1 k Hperm Hk) as Hst.
  destruct (mask_path_walks_from_start edge_index p walks_per_node
              walk_length num_nodes "node" is_sorted g _ _
              ltac:(fold N; lia) Hvalid Hsorted Hst)
    as (ne & g2 & Hw & Hsteps & Hcount).
  rewrite (bind_Ok _ _ _ _ _ Hw). cbn [fst snd].
  assert (ne.2 ≠ []) as Hne.
  { intros Hnil. rewrite Hnil in Hcount. simpl in Hcount.
    rewrite length_tensor_repeat, py_slice_prefix_min in Hcount by lia.
    rewrite HP, length_seqZ in Hcount. fold N in Hcount. nia. }
  assert (torch_tensor_dtype ne.2 = int64) as ->
    by (destruct ne.2; done).
  assert (is_Some (mapM (norm_index (length (replicate (length edge_index) true)))
                     (filter (λ e, e ≠ -1) ne.2))) as [ks Hks].
  { apply mapM_is_Some_2.
    eapply Forall2_Forall_left; [|exact Hsteps].
    intros u x Hux. simpl.
    unfold valid_edge_index in Hvalid. rewrite Forall_forall in Hvalid.
    destruct (Hvalid _ Hux) as [Hu _]. simpl in Hu. fold N in Hu.
    unfold norm_index. rewrite length_replicate.
    rewrite (proj2 (andb_true_iff _ _))
      by (split; [apply Z.leb_le | apply Z.ltb_lt]; lia).
    done. }
  unfold index_put_false. rewrite Hks.
  unfold lift, bind, ret. eauto.
Qed.

Lemma node_mode_mask_path_returns_witness :
  ∃ remaining masked g',
    mask_path [(0, 1); (1, 2); (2, 0)] 0.5 2 3 None "node" false true [5; 1]
    = (Ok (remaining, Edges masked), g').
Proof.
  apply (node_mode_mask_path_returns [(0, 1); (1, 2); (2, 0)] 0.5 2 3 None
           false [5; 1] 2).
  - reflexivity.
  - reflexivity.
  - simpl. lia.
  - repeat constructor; simpl; lia.
  - discriminate.
  - vm_compute. reflexivity.
  - lia.
  - lia.
Defined.

(** When no walk is started at all (an empty start list, or
    [walks_per_node = 0]), [e_id] is the empty list, the tensor built from
    it is a float tensor, and using it to index the edge mask raises
    [IndexError]. *)
Theorem mask_path_without_walks_raises
    (edge_index : edge_index_t) (p : float)
    (walks_per_node walk_length : nat) (num_nodes : option Z)
    (start : string) (is_sorted : bool) (g g1 : generator)
    (sw : edge_index_t * (list Z * list Z)) :
  out_of_range p = false →
  start = "node"%string ∨ start = "edge"%string →
  (p =? 0)%float = false →
  mask_path_walks edge_index p walks_per_node walk_length num_nodes start
    is_sorted g = (Ok sw, g1) →
  sw.2.2 = [] →
  mask_path edge_index p walks_per_node walk_length num_nodes start
    is_sorted true g = (Raise IndexError, g1).
Proof.
  intros Hrange Hs Hp Hw Hnil.
  rewrite mask_path_training_eq by done.
  rewrite (bind_Ok _ _ _ _ _ Hw). by rewrite Hnil.
Qed.

Lemma mask_path_without_walks_raises_witness :
  mask_path [(0, 1); (1, 2); (2, 0)] 0.125 1 3 None "node" false true [4]
  = (Raise IndexError, []).
Proof.
  apply (mask_path_without_walks_raises [(0, 1); (1, 2); (2, 0)] 0.125 1 3
           None "node" false [4] []
           ([(0, 1); (1, 2); (2, 0)], ([], []))).
  - reflexivity.
  - left. reflexivity.
  - reflexivity.
  - vm_compute. reflexivity.
  - reflexivity.
Defined.

(** ** Selecting the start nodes *)

Lemma draw_units_le_one (n : nat) (g : generator) (us : list Z)
    (g' : generator) :
  draw_units n g = (Ok us, g') →
  (λ u, unit_le u (to_float32 1)) <$> us = replicate (length us) true.
Proof.
  intros Hus.
  destruct (draw_units_spec n g) as (us' & Hus' & _ & Hall).
  rewrite Hus in Hus'. injection Hus' as <- _. clear Hus.
  change (to_float32 1) with (S754_finite false 8388608 (-23)).
  induction Hall as [|u us Hu _ IH]; csimpl; [done|].
  f_equal; [|exact IH]. apply Z.leb_le. lia.
Qed.

(** In 'edge' mode the start list is [walks_per_node] copies of a selection
    of the sources, in the order of the edge index, one entry per sampled
    edge; with [p = 1] every edge is sampled. *)
Theorem edge_mode_start_nodes
    (row : list Z) (p : float) (walks_per_node : nat) (num_nodes : Z)
    (g g' : generator) (st : list Z) :
  select_start row p walks_per_node num_nodes "edge" g = (Ok st, g') →
  ∃ sel,
    sel `sublist_of` row
    ∧ st = tensor_repeat sel walks_per_node
    ∧ (p = 1%float → sel = row).
Proof.
  unfold select_start. change (String.eqb "edge" "edge") with true.
  cbv iota. intros H.
  apply bind_Ok_inv in H as (mask & g1 & Hm & H).
  apply ret_inv in H as [-> ->].
  exists (select mask row). split; [apply select_sublist|].
  split; [done|]. intros ->.
  unfold rand_le in Hm.
  apply bind_Ok_inv in Hm as (us & g2 & Hus & Hm).
  apply ret_inv in Hm as [-> ->].
  rewrite (draw_units_le_one _ _ _ _ Hus).
  destruct (draw_units_spec (length row) g) as (us' & Hus' & Hlen & _).
  rewrite Hus in Hus'. injection Hus' as <- _.
  rewrite Hlen. apply select_all.
Qed.

Lemma edge_mode_start_nodes_witness :
  ∃ sel,
    sel `sublist_of` [0; 1; 2]
    ∧ [0; 2; 0; 2] = tensor_repeat sel 2
    ∧ (0.5%float = 1%float → sel = [0; 1; 2]).
Proof.
  apply (edge_mode_start_nodes [0; 1; 2] 0.5 2 3 [0; 16777215; 3] []).
  vm_compute. reflexivity.
Defined.

(** In 'node' mode the start list is [walks_per_node] copies of the first
    [round(N * p)] entries (all of them if that exceeds N) of a permutation
    of [0 .. N-1]: distinct nodes of the graph. *)
Theorem node_mode_start_nodes
    (row : list Z) (p : float) (walks_per_node : nat) (num_nodes : Z)
    (g g' : generator) (st : list Z) :
  select_start row p walks_per_node num_nodes "node" g = (Ok st, g') →
  ∃ k sel,
    py_round (float_of_Z num_nodes * p) = Ok k
    ∧ NoDup sel
    ∧ (∀ v, v ∈ sel → 0 ≤ v < num_nodes)
    ∧ (0 ≤ k → length sel = Z.to_nat (Z.min k num_nodes))
    ∧ st = tensor_repeat sel walks_per_node.
Proof.
  unfold select_start. change (String.eqb "node" "edge") with false.
  cbv iota. intros H.
  apply bind_Ok_inv in H as (perm & g1 & Hperm & H).
  apply bind_Ok_inv in H as (k & g2 & Hk & H).
  apply lift_Ok_inv in Hk as [Hk ->]. apply ret_inv in H as [-> ->].
  pose proof (randperm_Ok_Permutation _ _ _ _ Hperm) as HP.
  exists k, (py_slice perm 0 k). split; [done|].
  split; [|split; [|split; [|done]]].
  - eapply sublist_NoDup; [|apply py_slice_sublist].
    rewrite HP. apply NoDup_seqZ.
  - intros v Hv.
    assert (v ∈ perm) as Hin.
    { eapply elem_of_submseteq; [exact Hv|].
      apply sublist_submseteq, py_slice_sublist. }
    rewrite HP in Hin. apply elem_of_seqZ in Hin. lia.
  - intros Hk0. rewrite py_slice_prefix_min by done.
    rewrite HP, length_seqZ.
    assert (0 ≤ num_nodes) as Hn.
    { unfold randperm in Hperm.
      destruct (Z.ltb_spec num_nodes 0); [discriminate | done]. }
    by rewrite Z2Nat.id.
Qed.

Lemma node_mode_start_nodes_witness :
  ∃ k sel,
    py_round (float_of_Z 3 * 0.5) = Ok k
    ∧ NoDup sel
    ∧ (∀ v, v ∈ sel → 0 ≤ v < 3)
    ∧ (0 ≤ k → length sel = Z.to_nat (Z.min k 3))
    ∧ [2; 0; 2; 0] = tensor_repeat sel 2.
Proof.
  apply (node_mode_start_nodes [0; 1; 2] 0.5 2 3 [5; 0; 0] []).
  vm_compute. reflexivity.
Defined.

(** ** Edge cases of the walks *)

(** A walk from a node without out-edges ends at once: nothing is recorded,
    no random number is drawn, nothing is raised. *)
Theorem walk_from_sink_is_empty
    (edge_index : list (Z * Z)) (n v : Z) (deg : list Z)
    (walk_length : nat) (g : generator) :
  valid_edge_index n edge_index →
  sorted_by_source edge_index →
  degree (fst <$> edge_index) n = Ok deg →
  0 ≤ v < n →
  out_neighbors edge_index v = [] →
  walk (snd <$> edge_index) (0 :: cumsum deg) walk_length v g
  = (Ok ([], []), g).
Proof.
  intros Hvalid Hsorted Hdeg Hv Hsink.
  destruct walk_length as [|steps]; [done|].
  destruct (csr_slice_out_neighbors edge_index n v deg Hvalid Hsorted
              Hdeg Hv) as (lo & hi & Hlo & Hhi & Hslice).
  rewrite (walk_step _ _ _ _ lo hi) by done. by rewrite Hslice, Hsink.
Qed.

Lemma walk_from_sink_is_empty_witness :
  walk (snd <$> [(0, 1); (0, 2); (2, 0)]) (0 :: cumsum [2; 0; 1]) 3 1 [7]
  = (Ok ([], []), [7]).
Proof.
  apply (walk_from_sink_is_empty [(0, 1); (0, 2); (2, 0)] 3 1 [2; 0; 1] 3
           [7]).
  - repeat constructor; simpl; lia.
  - repeat constructor; simpl; lia.
  - reflexivity.
  - lia.
  - reflexivity.
Defined.

(** With [walk_length = 0] nothing is masked: whenever the call returns on
    the training path, the remaining tensor is the whole canonical edge
    index and the masked tensor is empty. *)
Theorem zero_walk_length_masks_nothing
    (edge_index remaining masked : edge_index_t) (p : float)
    (walks_per_node : nat) (num_nodes : option Z)
    (start : string) (is_sorted : bool) (g g' : generator) :
  (p =? 0)%float = false →
  mask_path edge_index p walks_per_node 0 num_nodes start is_sorted true g
  = (Ok (remaining, Edges masked), g') →
  remaining = canonical edge_index is_sorted ∧ masked = [].
Proof.
  intros Hp. unfold mask_path. rewrite Hp.
  destruct ((p <? 0) || (1 <? p))%float; [discriminate|].
  destruct (negb (bool_decide _)); [discriminate|].
  cbn [negb orb]. intros H.
  apply bind_Ok_inv in H as (sw & g1 & Hw & H).
  apply bind_Ok_inv in H as (edge_mask & g2 & Hm & H).
  apply lift_Ok_inv in Hm as [Hm ->].
  apply ret_inv in H as [[= -> ->] ->].
  rewrite (mask_path_walks_canonical _ _ _ _ _ _ _ _ _ _ Hw).
  unfold mask_path_walks in Hw.
  apply bind_Ok_inv in Hw as (st & g3 & _ & Hw).
  apply bind_Ok_inv in Hw as (deg & g4 & _ & Hw).
  apply bind_Ok_inv in Hw as (ne & g5 & Hr & Hw).
  apply ret_inv in Hw as [-> ->]. simpl in Hm.
  apply walk_rounds_steps in Hr as [Hfilter Hsteps]. simpl in *.
  specialize (Hfilter ltac:(lia)).
  assert (filter (λ e, e ≠ -1) ne.2 = []) as Hnil
    by (apply nil_length_inv; lia).
  rewrite Hnil in Hm. unfold index_put_false in Hm.
  destruct (torch_tensor_dtype ne.2); [|discriminate].
  simpl in Hm. injection Hm as <-.
  rewrite fmap_replicate. simpl. split; [|apply select_none].
  rewrite <- (Permutation_length (canonical_Permutation edge_index is_sorted)).
  apply select_all.
Qed.

Lemma zero_walk_length_masks_nothing_witness :
  [(0, 1); (1, 2); (2, 0)] = canonical [(2, 0); (0, 1); (1, 2)] false
  ∧ @nil (Z * Z) = [].
Proof.
  apply (zero_walk_length_masks_nothing [(2, 0); (0, 1); (1, 2)]
           [(0, 1); (1, 2); (2, 0)] [] 1 2 None "node" false [] []);
    vm_compute; reflexivity.
Defined.

(** ** The adapters *)

(** The three adapters pass the configured probability on, so an
    out-of-range one makes [forward] raise [ValueError] before anything is
    sampled, whatever the other settings. *)
Theorem forward_rejects_out_of_range
    (mn : MaskNode) (mp : MaskPath) (me : MaskEdge)
    (x : list (list float)) (edge_index : edge_index_t) (g : generator) :
  (out_of_range (mn_q mn) = true →
   MaskNode_forward mn x g = (Raise ValueError, g))
  ∧ (out_of_range (mp_p mp) = true →
     MaskPath_forward mp edge_index g = (Raise ValueError, g))
  ∧ (out_of_range (me_p me) = true →
     MaskEdge_forward me edge_index g = (Raise ValueError, g)).
Proof.
  unfold out_of_range. repeat split; intros Hp.
  - unfold MaskNode_forward, mask_node_features. by rewrite Hp.
  - unfold MaskPath_forward, mask_path, bind. by rewrite Hp.
  - unfold MaskEdge_forward, mask_edge, bind. by rewrite Hp.
Qed.

Lemma forward_rejects_out_of_range_witness :
  MaskPath_forward
    {| mp_p := 1.5; mp_walks_per_node := 1; mp_walk_length := 3;
       mp_start := "node"; mp_num_nodes := None; mp_undirected := true |}
    [(0, 1)] [3] = (Raise ValueError, [3]).
Proof.
  destruct (forward_rejects_out_of_range
              {| mn_q := 0.5; mn_undirected := true |}
              {| mp_p := 1.5; mp_walks_per_node := 1; mp_walk_length := 3;
                 mp_start := "node"; mp_num_nodes := None;
                 mp_undirected := true |}
              {| me_p := 0.5; me_undirected := true |}
              [] [(0, 1)] [3]) as (_ & Hp & _).
  apply Hp. reflexivity.
Defined.

(** [MaskPath.forward] configured with [p = 0] masks nothing, and what it
    returns as the second component is then the all-true boolean mask of
    length E, not an (empty) edge tensor; the first component is the input,
    symmetrized when [undirected] is set. *)
Theorem MaskPath_forward_zero_probability
    (mp : MaskPath) (edge_index : edge_index_t) (g : generator) :
  (mp_p mp =? 0)%float = true →
  out_of_range (mp_p mp) = false →
  mp_start mp = "node"%string ∨ mp_start mp = "edge"%string →
  MaskPath_forward mp edge_index g
  = (Ok (if mp_undirected mp then to_undirected edge_index else edge_index,
         BoolMask (replicate (length edge_index) true)), g).
Proof.
  intros Hz Hrange Hs. unfold MaskPath_forward, mask_path, bind.
  unfold out_of_range in Hrange. rewrite Hrange, Hz.
  rewrite bool_decide_eq_true_2 by (rewrite !elem_of_cons; tauto).
  done.
Qed.

Lemma MaskPath_forward_zero_probability_witness :
  MaskPath_forward
    {| mp_p := 0; mp_walks_per_node := 1; mp_walk_length := 3;
       mp_start := "edge"; mp_num_nodes := None; mp_undirected := true |}
    [(2, 0); (0, 1)] [8]
  = (Ok ([(0, 1); (0, 2); (1, 0); (2, 0)], BoolMask [true; true]), [8]).
Proof.
  apply (MaskPath_forward_zero_probability
           {| mp_p := 0; mp_walks_per_node := 1; mp_walk_length := 3;
              mp_start := "edge"; mp_num_nodes := None;
              mp_undirected := true |} [(2, 0); (0, 1)] [8]).
  - reflexivity.
  - reflexivity.
  - right. reflexivity.
Defined.
